(** * kroki/seqlock: the sequence lock of [seqlock.h]

    The header defines five macros over one shared [unsigned int]:
    [kroki_seqlock_write_lock], [kroki_seqlock_write_lock_spin],
    [kroki_seqlock_write_unlock], [kroki_seqlock_read_lock] and
    [kroki_seqlock_read_unlock].  Each macro is a short sequence of GCC
    [__atomic_*] builtins.  The development models

    - the lock word as a 32-bit unsigned integer ([Z] with the wrap-around
      written out);
    - every builtin call as one atomic step of the calling thread, recorded
      as an [event] that keeps the arguments and the memory order the source
      passes;
    - a thread as a program point together with its live locals
      ([_kroki_seqlock_old]); each macro is the function that performs the
      builtin call at the program point, and [thread_step] runs the macro
      the thread is in;
    - a program as a pool of threads over one lock word, run under an
      arbitrary schedule: the steps of the threads interleave, a load
      returns the value the lock word holds when it executes, and the
      schedule also decides when the weak compare-and-swap fails
      spuriously.  Memory orders are kept in the events; they do not
      restrict the interleavings. *)

From Stdlib Require Import ZArith Lia List Bool.
From stdpp Require Import base list.
Import ListNotations.

Local Open Scope Z_scope.

(** ** The lock word: [typedef unsigned int kroki_seqlock_t] (line 70) *)

Definition kroki_seqlock_t : Type := Z.

(** Width of [unsigned int] on the targets of GCC the header is written for. *)
Definition UINT_BITS : Z := 32.
Definition UINT_MODULUS : Z := 2 ^ UINT_BITS.

Definition in_range (c : kroki_seqlock_t) : Prop := 0 <= c < UINT_MODULUS.

(** Conversion to [unsigned int]: reduction modulo [2^32]. *)
Definition wrap (z : Z) : kroki_seqlock_t := z mod UINT_MODULUS.

(** [a + b] on [unsigned int]. *)
Definition uint_add (a b : Z) : kroki_seqlock_t := wrap (a + b).

(** [~1]: the operand [1] has type [int], so [~1] is [-2]; in [x & ~1] with
    [x] unsigned it is converted to [unsigned int]. *)
Definition not_1 : kroki_seqlock_t := wrap (Z.lnot 1).

(** [x & ~1] *)
Definition and_not_1 (x : kroki_seqlock_t) : kroki_seqlock_t := Z.land x not_1.

(** ** Builtins and their memory orders *)

Inductive memorder : Type :=
| ATOMIC_RELAXED
| ATOMIC_CONSUME
| ATOMIC_ACQUIRE
| ATOMIC_RELEASE
| ATOMIC_ACQ_REL
| ATOMIC_SEQ_CST.

(** One event per executed builtin.  [user_block] stands for one execution of
    the caller's code placed between a lock macro and its unlock macro. *)
Inductive event : Type :=
| atomic_load_n (ret : kroki_seqlock_t) (mo : memorder)
| atomic_store_n (val : kroki_seqlock_t) (mo : memorder)
| atomic_compare_exchange_n (expected desired : kroki_seqlock_t) (weak : bool)
    (success_mo failure_mo : memorder) (ret : bool)
| atomic_signal_fence (mo : memorder)
| builtin_ia32_pause
| user_block.

(** The value an event writes to the lock word, if it writes one. *)
Definition written (e : event) : option kroki_seqlock_t :=
  match e with
  | atomic_store_n v _ => Some v
  | atomic_compare_exchange_n _ desired _ _ _ true => Some desired
  | _ => None
  end.


Definition is_user_block (e : event) : bool :=
  match e with user_block => true | _ => false end.

(** ** Program points

    A thread is at one of the builtin calls of the macro pair it executes.
    The argument is the value of the local [_kroki_seqlock_old] where it is
    live.  In the read loop [_kroki_seqlock_new] is only live between the
    load that sets it and the assignment or test that follows at once, so it
    needs no program point of its own. *)
Inductive pc : Type :=
(* kroki_seqlock_write_lock, lines 84-93 *)
| WL_load                                   (* line 88 *)
| WL_store_relaxed (old : kroki_seqlock_t)  (* lines 89-90 *)
| WL_store_release (old : kroki_seqlock_t)  (* lines 91-92 *)
| WL_fence (old : kroki_seqlock_t)          (* line 93 *)
(* kroki_seqlock_write_lock_spin, lines 101-119 *)
| WS_load                                   (* lines 104-105 *)
| WS_cas (old : kroki_seqlock_t)            (* lines 106-113 *)
| WS_pause (old : kroki_seqlock_t)          (* line 115 *)
| WS_reload (old : kroki_seqlock_t)         (* lines 116-117 *)
(* the caller's writes, between a write lock and the unlock *)
| W_block (old : kroki_seqlock_t)
(* kroki_seqlock_write_unlock, lines 121-125 *)
| WU_store (old : kroki_seqlock_t)          (* lines 122-123 *)
(* kroki_seqlock_read_lock, lines 127-137 *)
| RL_load                                   (* lines 131-132, then 136 *)
(* the caller's reads, between the read lock and the read unlock *)
| R_block (old : kroki_seqlock_t)
(* kroki_seqlock_read_unlock, lines 150-159 *)
| RU_fence (old : kroki_seqlock_t)          (* line 151 *)
| RU_load_first (old : kroki_seqlock_t)     (* line 152 *)
| RU_load_second (old : kroki_seqlock_t)    (* lines 153-154, then 156 *)
(* past the closing [while (0)] of the pair *)
| Done.

(** The two hardware classes of lines 161-165. *)
Inductive target : Type :=
| X86       (* [__i686__] or [__x86_64__] *)
| Other.

(** [_kroki_seqlock_pause()], lines 161-165: the [pause] instruction on x86,
    nothing elsewhere. *)
Definition _kroki_seqlock_pause (t : target) : list event :=
  match t with
  | X86 => [builtin_ia32_pause]
  | Other => []
  end.

(** The expected value of the compare-and-swap, lines 105 and 117:
    [(__atomic_load_n(plock, __ATOMIC_RELAXED) + 1) & ~1]. *)
Definition spin_expected (loaded : kroki_seqlock_t) : kroki_seqlock_t :=
  and_not_1 (uint_add loaded 1).

(** The [_kroki_seqlock_old] of the read loop, line 136:
    [_kroki_seqlock_new & ~1]. *)
Definition read_baseline (new : kroki_seqlock_t) : kroki_seqlock_t :=
  and_not_1 new.

Section Machine.

Variable tgt : target.

(** *** The macros

    Each macro is the function that executes the builtin call at which the
    thread stands when the lock word holds [plock]: it gives the next
    program point, the lock word afterwards and the events of the call, and
    [None] at the program points of other macros. *)

Definition outcome : Type := pc * kroki_seqlock_t * list event.

(** [kroki_seqlock_write_lock(plock)], lines 84-93. *)
Definition kroki_seqlock_write_lock (p : pc) (plock : kroki_seqlock_t)
  : option outcome :=
  match p with
  | WL_load =>
      (* kroki_seqlock_t _kroki_seqlock_old =
           __atomic_load_n(plock, __ATOMIC_RELAXED); *)
      Some (WL_store_relaxed plock, plock,
            [atomic_load_n plock ATOMIC_RELAXED])
  | WL_store_relaxed old =>
      (* __atomic_store_n(plock, _kroki_seqlock_old + 1, __ATOMIC_RELAXED); *)
      Some (WL_store_release old, uint_add old 1,
            [atomic_store_n (uint_add old 1) ATOMIC_RELAXED])
  | WL_store_release old =>
      (* __atomic_store_n(plock, _kroki_seqlock_old + 1, __ATOMIC_RELEASE); *)
      Some (WL_fence old, uint_add old 1,
            [atomic_store_n (uint_add old 1) ATOMIC_RELEASE])
  | WL_fence old =>
      (* __atomic_signal_fence(__ATOMIC_ACQ_REL) *)
      Some (W_block old, plock, [atomic_signal_fence ATOMIC_ACQ_REL])
  | _ => None
  end.

(** [kroki_seqlock_write_lock_spin(plock)], lines 101-119.  [spurious]
    tells whether the compare-and-swap of this call, which is weak (fourth
    argument [1], line 110), fails although the values match.
    [__builtin_expect] only returns its first argument. *)
Definition kroki_seqlock_write_lock_spin (spurious : bool) (p : pc)
    (plock : kroki_seqlock_t) : option outcome :=
  match p with
  | WS_load =>
      (* kroki_seqlock_t _kroki_seqlock_old =
           (__atomic_load_n(plock, __ATOMIC_RELAXED) + 1) & ~1; *)
      Some (WS_cas (spin_expected plock), plock,
            [atomic_load_n plock ATOMIC_RELAXED])
  | WS_cas old =>
      (* while (! __atomic_compare_exchange_n(plock, &_kroki_seqlock_old,
                    _kroki_seqlock_old + 1, 1,
                    __ATOMIC_ACQUIRE, __ATOMIC_RELAXED)) *)
      if (plock =? old) && negb spurious
      then (* exchanged: the loop is left *)
           Some (W_block old, uint_add old 1,
                 [atomic_compare_exchange_n old (uint_add old 1) true
                    ATOMIC_ACQUIRE ATOMIC_RELAXED true])
      else (* not exchanged: the builtin copies the value it found into
              [_kroki_seqlock_old]; the loop body follows *)
           Some (WS_pause plock, plock,
                 [atomic_compare_exchange_n old (uint_add old 1) true
                    ATOMIC_ACQUIRE ATOMIC_RELAXED false])
  | WS_pause old =>
      (* _kroki_seqlock_pause(); *)
      Some (WS_reload old, plock, _kroki_seqlock_pause tgt)
  | WS_reload _ =>
      (* _kroki_seqlock_old =
           (__atomic_load_n(plock, __ATOMIC_RELAXED) + 1) & ~1; *)
      Some (WS_cas (spin_expected plock), plock,
            [atomic_load_n plock ATOMIC_RELAXED])
  | _ => None
  end.

(** [kroki_seqlock_write_unlock(plock)], lines 121-125. *)
Definition kroki_seqlock_write_unlock (p : pc) (plock : kroki_seqlock_t)
  : option outcome :=
  match p with
  | WU_store old =>
      (* __atomic_store_n(plock, _kroki_seqlock_old + 2, __ATOMIC_RELEASE); *)
      Some (Done, uint_add old 2,
            [atomic_store_n (uint_add old 2) ATOMIC_RELEASE])
  | _ => None
  end.

(** [kroki_seqlock_read_lock(plock)], lines 127-137. *)
Definition kroki_seqlock_read_lock (p : pc) (plock : kroki_seqlock_t)
  : option outcome :=
  match p with
  | RL_load =>
      (* kroki_seqlock_t _kroki_seqlock_new =
           __atomic_load_n(plock, __ATOMIC_ACQUIRE);
         do { do _kroki_seqlock_old = _kroki_seqlock_new & ~1; while (0) *)
      Some (R_block (read_baseline plock), plock,
            [atomic_load_n plock ATOMIC_ACQUIRE])
  | _ => None
  end.

(** [kroki_seqlock_read_unlock(plock)], lines 150-159. *)
Definition kroki_seqlock_read_unlock (p : pc) (plock : kroki_seqlock_t)
  : option outcome :=
  match p with
  | RU_fence old =>
      (* __atomic_signal_fence(__ATOMIC_ACQ_REL); *)
      Some (RU_load_first old, plock, [atomic_signal_fence ATOMIC_ACQ_REL])
  | RU_load_first old =>
      (* __atomic_load_n(plock, __ATOMIC_ACQUIRE); *)
      Some (RU_load_second old, plock, [atomic_load_n plock ATOMIC_ACQUIRE])
  | RU_load_second old =>
      (* _kroki_seqlock_new = __atomic_load_n(plock, __ATOMIC_ACQUIRE);
         } while (_kroki_seqlock_old != _kroki_seqlock_new); *)
      if negb (old =? plock)
      then (* again from the inner [do] of line 135:
              _kroki_seqlock_old = _kroki_seqlock_new & ~1 *)
           Some (R_block (read_baseline plock), plock,
                 [atomic_load_n plock ATOMIC_ACQUIRE])
      else Some (Done, plock, [atomic_load_n plock ATOMIC_ACQUIRE])
  | _ => None
  end.

(** The caller's code between a lock macro and its unlock macro.  It does
    not touch the lock word. *)
Definition caller_block (p : pc) (plock : kroki_seqlock_t) : option outcome :=
  match p with
  | W_block old => Some (WU_store old, plock, [user_block])
  | R_block old => Some (RU_fence old, plock, [user_block])
  | _ => None
  end.

(** One step of a thread at [p]: the call of the macro the thread is in.  A
    thread past its pair does nothing. *)
Definition thread_step (spurious : bool) (p : pc) (plock : kroki_seqlock_t)
  : outcome :=
  match kroki_seqlock_write_lock p plock with Some r => r | None =>
  match kroki_seqlock_write_lock_spin spurious p plock with Some r => r | None =>
  match kroki_seqlock_write_unlock p plock with Some r => r | None =>
  match kroki_seqlock_read_lock p plock with Some r => r | None =>
  match kroki_seqlock_read_unlock p plock with Some r => r | None =>
  match caller_block p plock with Some r => r | None =>
  (p, plock, [])
  end end end end end end.

(** *** A thread against the lock values it meets

    [thread_run obs p] runs one thread from [p] for [length obs] steps; the
    [k]-th entry of [obs] gives the spurious-failure flag of the [k]-th
    step and the value the lock word holds when the step executes (other
    threads may change it between two steps).  The result is the final
    program point and the thread's events, oldest first. *)
Fixpoint thread_run (obs : list (bool * kroki_seqlock_t)) (p : pc)
  : pc * list event :=
  match obs with
  | [] => (p, [])
  | (spurious, plock) :: rest =>
      let '(p', _, evs) := thread_step spurious p plock in
      let '(q, tr) := thread_run rest p' in
      (q, evs ++ tr)
  end.

(** *** The thread pool *)

Record system : Type := System {
  plock : kroki_seqlock_t;          (* the object [plock] points to *)
  threads : list pc;
  trace : list (nat * event)        (* oldest first, tagged by thread *)
}.

(** A scheduling choice: the thread that executes its next builtin, and
    whether a weak compare-and-swap it executes fails spuriously. *)
Definition choice : Type := nat * bool.

Definition step (ch : choice) (s : system) : system :=
  match threads s !! fst ch with
  | None => s
  | Some p =>
      let '(p', c', evs) := thread_step (snd ch) p (plock s) in
      {| plock := c';
         threads := <[fst ch := p']> (threads s);
         trace := trace s ++ map (pair (fst ch)) evs |}
  end.

Fixpoint run (sched : list choice) (s : system) : system :=
  match sched with
  | [] => s
  | ch :: rest => run rest (step ch s)
  end.

(** The events of thread [i] in a trace, oldest first. *)
Definition events_of (i : nat) (tr : list (nat * event)) : list event :=
  map snd (filter (fun te => fst te = i) tr).

(** The values written to the lock word, oldest first. *)
Definition writes (tr : list (nat * event)) : list kroki_seqlock_t :=
  omap (fun te => written (snd te)) tr.

(** How often a schedule picks thread [i]. *)
Definition scheduled (i : nat) (sched : list choice) : nat :=
  length (filter (fun ch => fst ch = i) sched).

(** What thread [i] meets under a schedule from state [s]: for each of its
    steps, the spurious-failure flag and the lock word at that moment. *)
Fixpoint observations (i : nat) (sched : list choice) (s : system)
  : list (bool * kroki_seqlock_t) :=
  match sched with
  | [] => []
  | ch :: rest =>
      (if decide (fst ch = i) then [(snd ch, plock s)] else [])
      ++ observations i rest (step ch s)
  end.

End Machine.

(** ** Notions the statements are written in *)

(** A writer holds the lock from the step that made the lock word odd until
    its unlocking store: it is at its block or at the store of
    [kroki_seqlock_write_unlock]. *)
Definition in_critical_section (p : pc) : bool :=
  match p with
  | W_block _ | WU_store _ => true
  | _ => false
  end.

(** Program points of the read pair (and the point past any pair, where a
    thread executes nothing more). *)
Definition read_side (p : pc) : bool :=
  match p with
  | RL_load | R_block _ | RU_fence _ | RU_load_first _ | RU_load_second _
  | Done => true
  | _ => false
  end.

(** [c0 + 1, c0 + 2, ..., c0 + n] on [unsigned int]. *)
Definition count_up (c0 : kroki_seqlock_t) (n : nat) : list kroki_seqlock_t :=
  map (fun k => wrap (c0 + Z.of_nat k)) (seq 1 n).

(** A pool whose writers all use [kroki_seqlock_write_lock_spin]: every
    thread is about to start that macro or [kroki_seqlock_read_lock]. *)
Definition spinning_pool (ts : list pc) : Prop :=
  Forall (fun p => p = WS_load \/ p = RL_load) ts.

(** A pool with the single writer [w], about to start
    [kroki_seqlock_write_lock]; all other threads are readers. *)
Definition single_writer_pool (w : nat) (ts : list pc) : Prop :=
  ts !! w = Some WL_load /\
  forall i p, i <> w -> ts !! i = Some p -> p = RL_load.

(** The program point of a thread that started
    [kroki_seqlock_write_lock] with the lock word at [C], after [k] of its
    steps, the lock word at that moment, and the events of the whole pair. *)
Definition write_pair_pc (C : kroki_seqlock_t) (k : nat) : pc :=
  match k with
  | 0%nat => WL_load
  | 1%nat => WL_store_relaxed C
  | 2%nat => WL_store_release C
  | 3%nat => WL_fence C
  | 4%nat => W_block C
  | 5%nat => WU_store C
  | _ => Done
  end.

Definition write_pair_lock (C : kroki_seqlock_t) (k : nat) : kroki_seqlock_t :=
  match k with
  | 0%nat | 1%nat => C
  | 2%nat | 3%nat | 4%nat | 5%nat => uint_add C 1
  | _ => uint_add C 2
  end.

Definition write_pair_events (C : kroki_seqlock_t) : list event :=
  [ atomic_load_n C ATOMIC_RELAXED;
    atomic_store_n (uint_add C 1) ATOMIC_RELAXED;
    atomic_store_n (uint_add C 1) ATOMIC_RELEASE;
    atomic_signal_fence ATOMIC_ACQ_REL;
    user_block;
    atomic_store_n (uint_add C 2) ATOMIC_RELEASE ].

(** What holds of a thread of a spinning pool when the lock word is [c]. *)
Definition spin_ok (c : kroki_seqlock_t) (p : pc) : Prop :=
  match p with
  | WL_load | WL_store_relaxed _ | WL_store_release _ | WL_fence _ => False
  | WS_cas old => in_range old /\ Z.even old = true
  | W_block old | WU_store old =>
      in_range old /\ Z.even old = true /\ c = old + 1
  | _ => True
  end.

(** The invariant of a spinning pool started with the lock word at [c0]. *)
Record spin_inv (c0 : kroki_seqlock_t) (s : system) : Prop := SpinInv {
  inv_range : in_range (plock s);
  inv_threads : forall i p, threads s !! i = Some p -> spin_ok (plock s) p;
  inv_mutex : forall i j p q,
      threads s !! i = Some p -> threads s !! j = Some q ->
      in_critical_section p = true -> in_critical_section q = true -> i = j;
  inv_holder : Z.odd (plock s) = true ->
      exists i p, threads s !! i = Some p /\ in_critical_section p = true;
  inv_writes : writes (trace s) = count_up c0 (length (writes (trace s)));
  inv_lock : plock s = wrap (c0 + Z.of_nat (length (writes (trace s))))
}.

(** The invariant of a single-writer pool: [k] counts the steps of the
    writer [w]. *)
Record single_inv (C : kroki_seqlock_t) (w k : nat) (s : system) : Prop :=
  SingleInv {
  sw_pc : threads s !! w = Some (write_pair_pc C k);
  sw_lock : plock s = write_pair_lock C k;
  sw_events : events_of w (trace s) = take k (write_pair_events C);
  sw_writes : writes (trace s) =
              omap written (take k (write_pair_events C));
  sw_readers : forall i p, i <> w -> threads s !! i = Some p ->
               read_side p = true
}.


Definition count_blocks (tr : list event) : nat :=
  length (List.filter is_user_block tr).

(** Events of the read side: acquire loads, the signal fence, the block. *)
Definition read_event (e : event) : bool :=
  match e with
  | atomic_load_n _ ATOMIC_ACQUIRE => true
  | atomic_signal_fence ATOMIC_ACQ_REL => true
  | user_block => true
  | _ => false
  end.


(** The events of one failed round of the loop of
    [kroki_seqlock_write_lock_spin], lines 106-118, when the lock word holds
    [seen] throughout. *)
Definition failed_round (t : target) (expected seen : kroki_seqlock_t)
  : list event :=
  atomic_compare_exchange_n expected (uint_add expected 1) true
    ATOMIC_ACQUIRE ATOMIC_RELAXED false
  :: _kroki_seqlock_pause t ++ [atomic_load_n seen ATOMIC_RELAXED].

(** What one step of a thread of a spinning pool does to the lock word. *)
Inductive spin_effect (c : kroki_seqlock_t) (p : pc)
  : pc * kroki_seqlock_t * list event -> Prop :=
| effect_silent p' evs :
    omap written evs = [] ->
    in_critical_section p' = in_critical_section p ->
    spin_ok c p' ->
    spin_effect c p (p', c, evs)
| effect_acquire old :
    p = WS_cas old -> c = old -> in_range old -> Z.even old = true ->
    spin_effect c p
      (W_block old, uint_add old 1,
       [atomic_compare_exchange_n old (uint_add old 1) true
          ATOMIC_ACQUIRE ATOMIC_RELAXED true])
| effect_release old :
    p = WU_store old -> c = old + 1 -> in_range old -> Z.even old = true ->
    spin_effect c p
      (Done, uint_add old 2, [atomic_store_n (uint_add old 2) ATOMIC_RELEASE]).

(** Program points of the loop of [kroki_seqlock_write_lock_spin], before
    the compare-and-swap has exchanged. *)
Definition in_spin_loop (p : pc) : bool :=
  match p with
  | WS_load | WS_cas _ | WS_pause _ | WS_reload _ => true
  | _ => false
  end.

(** A compare-and-swap that exchanged. *)
Definition exchanged (e : event) : bool :=
  match e with
  | atomic_compare_exchange_n _ _ _ _ _ true => true
  | _ => false
  end.

(** The retry in the words of the specification: after a failed check "the
    entire read body must be re-executed from read_lock()".  A thread that
    does so goes on, once its second load has returned [c], as a thread
    that starts [kroki_seqlock_read_lock] against the lock values [rest] it
    meets from then on. *)
Definition reexecutes_from_read_lock (tgt : target)
    (old c : kroki_seqlock_t) (sp : bool)
    (rest : list (bool * kroki_seqlock_t)) : Prop :=
  thread_run tgt ((sp, c) :: rest) (RU_load_second old) =
  (fst (thread_run tgt rest RL_load),
   atomic_load_n c ATOMIC_ACQUIRE :: snd (thread_run tgt rest RL_load)).

(** ** Notions of the further properties *)

(** The lock word after the trace [tr] of a pool started with the lock word
    at [c0]: the last value written, [c0] when nothing was written. *)
Definition lock_after (c0 : kroki_seqlock_t) (tr : list (nat * event))
  : kroki_seqlock_t :=
  default c0 (last (writes tr)).

(** The writes to the lock word a thread at [p] has still to perform before
    it is past its pair: three in [kroki_seqlock_write_lock] ...
    [kroki_seqlock_write_unlock], two in [kroki_seqlock_write_lock_spin] ...
    [kroki_seqlock_write_unlock], none on the read side. *)
Definition pending_writes (p : pc) : nat :=
  match p with
  | WL_load | WL_store_relaxed _ => 3
  | WL_store_release _ => 2
  | WL_fence _ => 1
  | WS_load | WS_cas _ | WS_pause _ | WS_reload _ => 2
  | W_block _ | WU_store _ => 1
  | _ => 0
  end.

Definition pending (ts : list pc) : nat := sum_list_with pending_writes ts.

(** The spinning writers of a pool that have not started yet. *)
Definition spinning_writers (ts : list pc) : nat :=
  length (List.filter (fun p => match p with WS_load => true | _ => false end)
            ts).

(** [n] steps of a thread that runs alone from [p] with the lock word at
    [c], no compare-and-swap failing spuriously: the program point and the
    lock word reached. *)
Fixpoint solo (tgt : target) (n : nat) (p : pc) (c : kroki_seqlock_t)
  : pc * kroki_seqlock_t :=
  match n with
  | O => (p, c)
  | S n => let '(p', c', _) := thread_step tgt false p c in solo tgt n p' c'
  end.

(** A reader whose current iteration recorded the baseline [old]: the trace
    holds the acquire load of thread [i] that gave the baseline, and [since]
    are the events of [i] after it. *)
Definition read_window (i : nat) (tr : list (nat * event))
    (old : kroki_seqlock_t) (since : list event) : Prop :=
  exists pre v post,
    tr = pre ++ (i, atomic_load_n v ATOMIC_ACQUIRE) :: post /\
    old = read_baseline v /\
    events_of i post = since.

(** The iteration in which reader [i] left the loop: it spans the trace from
    the load of [v] that gave the baseline to the load that returned the
    baseline; [mid] lies between the two loads. *)
Definition read_exit (i : nat) (tr : list (nat * event))
    (pre : list (nat * event)) (v : kroki_seqlock_t)
    (mid : list (nat * event)) : Prop :=
  exists c2 post,
    tr = pre ++ (i, atomic_load_n v ATOMIC_ACQUIRE) :: mid ++
         (i, atomic_load_n (read_baseline v) ATOMIC_ACQUIRE) :: post /\
    events_of i mid =
      [user_block; atomic_signal_fence ATOMIC_ACQ_REL;
       atomic_load_n c2 ATOMIC_ACQUIRE] /\
    events_of i post = [].

(** What the trace shows of reader [i] when it stands at [p]. *)
Definition reader_at (i : nat) (tr : list (nat * event)) (p : pc) : Prop :=
  match p with
  | RL_load => events_of i tr = []
  | R_block old => read_window i tr old []
  | RU_fence old => read_window i tr old [user_block]
  | RU_load_first old =>
      read_window i tr old [user_block; atomic_signal_fence ATOMIC_ACQ_REL]
  | RU_load_second old =>
      exists c2, read_window i tr old
        [user_block; atomic_signal_fence ATOMIC_ACQ_REL;
         atomic_load_n c2 ATOMIC_ACQUIRE]
  | Done => exists pre v mid, read_exit i tr pre v mid
  | _ => False
  end.

(** Every load in the trace returned the lock word of its moment. *)
Definition loads_faithful (c0 : kroki_seqlock_t) (tr : list (nat * event))
  : Prop :=
  forall pre i v mo post,
    tr = pre ++ (i, atomic_load_n v mo) :: post -> v = lock_after c0 pre.

(** The baseline of a reader is even. *)
Definition reader_even (p : pc) : Prop :=
  match p with
  | RL_load => True
  | R_block old | RU_fence old | RU_load_first old | RU_load_second old =>
      Z.even old = true
  | _ => False
  end.

(** A spinning writer that has not entered: its expected value is even. *)
Definition spinning (p : pc) : Prop :=
  match p with
  | WS_load | WS_pause _ | WS_reload _ => True
  | WS_cas old => Z.even old = true
  | _ => False
  end.

(** Program points outside the read pair. *)
Definition writing_side (p : pc) : bool :=
  match p with
  | RL_load | R_block _ | RU_fence _ | RU_load_first _ | RU_load_second _ =>
      false
  | _ => true
  end.

(** What the trace of any pool started with the lock word at [c0] keeps:
    the lock word is the last value written, and every load returned the
    lock word of its moment. *)
Record faithful (c0 : kroki_seqlock_t) (s : system) : Prop := Faithful {
  f_lock : plock s = lock_after c0 (trace s);
  f_loads : loads_faithful c0 (trace s)
}.

(** In the trace of a spinning pool started from [ts], a writer executes
    its block only while the lock word is odd. *)
Definition writer_blocks_odd (c0 : kroki_seqlock_t) (ts : list pc)
    (tr : list (nat * event)) : Prop :=
  forall pre j post,
    tr = pre ++ (j, user_block) :: post -> ts !! j = Some WS_load ->
    Z.odd (lock_after c0 pre) = true.

(** The invariant of a spinning pool together with what its trace keeps. *)
Record spin_trace (c0 : kroki_seqlock_t) (ts : list pc) (s : system)
  : Prop := SpinTrace {
  st_inv : spin_inv c0 s;
  st_faithful : faithful c0 s;
  st_kind : forall j p, ts !! j = Some WS_load -> threads s !! j = Some p ->
            writing_side p = true;
  st_blocks : writer_blocks_odd c0 ts (trace s)
}.

(** In the trace of a single-writer pool the writer [w] executes its block
    while the lock word is [C + 1]. *)
Definition writer_block_at (C : kroki_seqlock_t) (w : nat)
    (tr : list (nat * event)) : Prop :=
  forall pre post,
    tr = pre ++ (w, user_block) :: post -> lock_after C pre = uint_add C 1.

(** The invariant of a single-writer pool together with what its trace
    keeps. *)
Record single_trace (C : kroki_seqlock_t) (w k : nat) (s : system) : Prop :=
  SingleTrace {
  sg_inv : single_inv C w k s;
  sg_faithful : faithful C s;
  sg_block : writer_block_at C w (trace s)
}.

(** A pool whose only writer [w] is about to start
    [kroki_seqlock_write_lock_spin]; all other threads are readers. *)
Definition lone_spinner_pool (w : nat) (ts : list pc) : Prop :=
  ts !! w = Some WS_load /\
  forall i p, i <> w -> ts !! i = Some p -> p = RL_load.

(** The program point of a spinning writer that meets no other writer and
    no spurious failure, after [k] of its steps from the even lock word
    [C]; the lock word at that moment; the events of the whole pair. *)
Definition spin_pair_pc (C : kroki_seqlock_t) (k : nat) : pc :=
  match k with
  | 0%nat => WS_load
  | 1%nat => WS_cas C
  | 2%nat => W_block C
  | 3%nat => WU_store C
  | _ => Done
  end.

Definition spin_pair_lock (C : kroki_seqlock_t) (k : nat) : kroki_seqlock_t :=
  match k with
  | 0%nat | 1%nat => C
  | 2%nat | 3%nat => uint_add C 1
  | _ => uint_add C 2
  end.

Definition spin_pair_events (C : kroki_seqlock_t) : list event :=
  [ atomic_load_n C ATOMIC_RELAXED;
    atomic_compare_exchange_n C (uint_add C 1) true
      ATOMIC_ACQUIRE ATOMIC_RELAXED true;
    user_block;
    atomic_store_n (uint_add C 2) ATOMIC_RELEASE ].

Record lone_inv (C : kroki_seqlock_t) (w k : nat) (s : system) : Prop :=
  LoneInv {
  lo_pc : threads s !! w = Some (spin_pair_pc C k);
  lo_lock : plock s = spin_pair_lock C k;
  lo_events : events_of w (trace s) = take k (spin_pair_events C);
  lo_writes : writes (trace s) = omap written (take k (spin_pair_events C));
  lo_readers : forall i p, i <> w -> threads s !! i = Some p ->
               read_side p = true
}.

(** * Proofs *)

(** ** Arithmetic of the lock word *)

Ltac range_unfold :=
  unfold in_range, uint_add, wrap, UINT_MODULUS, UINT_BITS in *;
  change (2 ^ 32) with 4294967296 in *.

Ltac zlia := Z.to_euclidean_division_equations; lia.

Lemma wrap_in_range z : in_range (wrap z).
Proof. range_unfold. apply Z.mod_pos_bound. lia. Qed.

Lemma wrap_small z : in_range z -> wrap z = z.
Proof. range_unfold. intros. apply Z.mod_small. lia. Qed.

Lemma uint_add_in_range a b : in_range (uint_add a b).
Proof. apply wrap_in_range. Qed.

Lemma uint_add_wrap_l a b : uint_add (wrap a) b = wrap (a + b).
Proof. range_unfold. apply Zplus_mod_idemp_l. Qed.

Lemma even_true_mod x : Z.even x = true -> x mod 2 = 0.
Proof. intros E. rewrite Zmod_even, E. reflexivity. Qed.

Lemma even_false_mod x : Z.even x = false -> x mod 2 = 1.
Proof. intros E. rewrite Zmod_even, E. reflexivity. Qed.

Lemma mod_even_true x : x mod 2 = 0 -> Z.even x = true.
Proof. rewrite Zmod_even. destruct (Z.even x); [reflexivity | discriminate]. Qed.

Lemma not_1_value : not_1 = 4294967294.
Proof. reflexivity. Qed.

Lemma and_not_1_spec x : in_range x -> and_not_1 x = 2 * (x / 2).
Proof.
  unfold in_range, and_not_1, not_1, wrap, UINT_MODULUS, UINT_BITS. intros Hx.
  rewrite <- (Z.land_ones (Z.lnot 1) 32) by lia.
  rewrite (Z.land_comm (Z.lnot 1)), Z.land_assoc, (Z.land_ones x 32) by lia.
  rewrite Z.mod_small by lia.
  change (Z.land x (Z.lnot 1)) with (Z.land x (Z.lnot (Z.ones 1))).
  rewrite <- Z.ldiff_land, Z.ldiff_ones_r by lia.
  rewrite Z.shiftr_div_pow2, Z.shiftl_mul_pow2 by lia.
  change (2 ^ 1) with 2. lia.
Qed.

Lemma and_not_1_sub x : in_range x -> and_not_1 x = x - x mod 2.
Proof. intros Hx. rewrite and_not_1_spec by assumption. zlia. Qed.

Lemma and_not_1_in_range x : in_range x -> in_range (and_not_1 x).
Proof.
  intros Hx. rewrite and_not_1_spec by assumption. range_unfold. zlia.
Qed.

Lemma and_not_1_even x : in_range x -> Z.even (and_not_1 x) = true.
Proof.
  intros Hx. rewrite and_not_1_spec by assumption.
  apply mod_even_true. zlia.
Qed.

Lemma and_not_1_fix x : in_range x -> Z.even x = true -> and_not_1 x = x.
Proof.
  intros Hx E. rewrite and_not_1_sub, (even_true_mod x E) by assumption. lia.
Qed.

Lemma spin_expected_in_range v : in_range (spin_expected v).
Proof. apply and_not_1_in_range, uint_add_in_range. Qed.

Lemma spin_expected_even v : Z.even (spin_expected v) = true.
Proof. apply and_not_1_even, uint_add_in_range. Qed.

Lemma spin_expected_spec v :
  in_range v ->
  spin_expected v = if Z.even v then v else uint_add v 1.
Proof.
  intros Hv. unfold spin_expected.
  rewrite and_not_1_spec by apply uint_add_in_range.
  destruct (Z.even v) eqn:E.
  - apply even_true_mod in E. range_unfold. zlia.
  - apply even_false_mod in E. range_unfold. zlia.
Qed.

Lemma even_succ_odd old : Z.even old = true -> Z.odd (old + 1) = true.
Proof. intros E. rewrite Z.odd_add, <- Z.negb_even, E. reflexivity. Qed.

Lemma even_uint_add_1 c :
  in_range c -> Z.even c = true -> uint_add c 1 = c + 1.
Proof. intros Hc E. apply even_true_mod in E. range_unfold. zlia. Qed.

Lemma even_uint_add_2 c :
  in_range c -> Z.even c = true -> Z.even (uint_add c 2) = true.
Proof.
  intros Hc E. apply even_true_mod in E. apply mod_even_true.
  range_unfold. zlia.
Qed.

Lemma uint_add_1_1 c : uint_add (uint_add c 1) 1 = uint_add c 2.
Proof. range_unfold. rewrite Zplus_mod_idemp_l. f_equal. lia. Qed.

Lemma uint_add_wrap_l_nat c0 n :
  uint_add (wrap (c0 + Z.of_nat n)) 1 = wrap (c0 + Z.of_nat (S n)).
Proof. rewrite uint_add_wrap_l. f_equal. lia. Qed.

(** ** Steps of the pool *)

Lemma step_some tgt i sp s p :
  threads s !! i = Some p ->
  step tgt (i, sp) s =
    let '(p', c', evs) := thread_step tgt sp p (plock s) in
    {| plock := c';
       threads := <[i := p']> (threads s);
       trace := trace s ++ map (pair i) evs |}.
Proof. intros H. unfold step. simpl. rewrite H. reflexivity. Qed.

Lemma step_none tgt i sp s :
  threads s !! i = None -> step tgt (i, sp) s = s.
Proof. intros H. unfold step. simpl. rewrite H. reflexivity. Qed.

Lemma lookup_insert_inv (l : list pc) i j p' q :
  <[i := p']> l !! j = Some q ->
  (j = i /\ q = p') \/ (j <> i /\ l !! j = Some q).
Proof.
  intros H. apply list_lookup_insert_Some in H.
  destruct H as [(-> & -> & _) | (Hne & H)]; [left | right]; auto.
Qed.

Lemma writes_app tr i evs :
  writes (tr ++ map (pair i) evs) = writes tr ++ omap written evs.
Proof.
  unfold writes. rewrite omap_app. f_equal.
  induction evs as [| e evs IH]; simpl; [reflexivity |].
  destruct (written e); [f_equal |]; exact IH.
Qed.

Lemma events_of_app w tr i evs :
  events_of w (tr ++ map (pair i) evs) =
  events_of w tr ++ (if decide (i = w) then evs else []).
Proof.
  unfold events_of. rewrite filter_app, map_app. f_equal.
  induction evs as [| e evs IH]; simpl.
  - destruct (decide (i = w)); reflexivity.
  - destruct (decide (i = w)) as [E | E].
    + rewrite filter_cons_True by exact E. simpl. rewrite IH. reflexivity.
    + rewrite filter_cons_False by exact E. exact IH.
Qed.

Lemma count_up_S c0 n :
  count_up c0 (S n) = count_up c0 n ++ [wrap (c0 + Z.of_nat (S n))].
Proof. unfold count_up. rewrite seq_S, map_app. reflexivity. Qed.

(** ** Spinning pools *)

Lemma spin_thread_step tgt sp p c :
  in_range c -> spin_ok c p -> spin_effect c p (thread_step tgt sp p c).
Proof.
  intros Hc Hp. unfold thread_step. destruct p; simpl in *; try contradiction;
    try (apply effect_silent; simpl; auto using spin_expected_in_range,
           spin_expected_even; fail).
  - (* WS_cas *)
    destruct Hp as [Hr He].
    destruct (c =? old) eqn:Heq, sp; simpl;
      try (apply effect_silent; simpl; auto; fail).
    apply Z.eqb_eq in Heq. eapply effect_acquire; eauto.
  - (* WS_pause *)
    apply effect_silent; simpl; auto. destruct tgt; reflexivity.
  - (* WU_store *)
    destruct Hp as (Hr & He & Hl). eapply effect_release; eauto.
  - (* RU_load_second *)
    destruct (negb (old =? c)); apply effect_silent; simpl; auto.
Qed.

Lemma spin_ok_outside c c' p :
  in_critical_section p = false -> spin_ok c p -> spin_ok c' p.
Proof. destruct p; simpl; auto; discriminate. Qed.

Lemma spin_ok_inside_odd c p :
  in_critical_section p = true -> spin_ok c p -> Z.odd c = true.
Proof.
  destruct p; simpl; try discriminate;
    intros _ (_ & He & ->); apply even_succ_odd, He.
Qed.

Lemma even_not_odd c : Z.even c = true -> Z.odd c = true -> False.
Proof. rewrite <- Z.negb_even. intros ->. discriminate. Qed.

Section SpinPreservation.

Variables (c0 : kroki_seqlock_t) (s : system) (i : nat) (p : pc).
Hypothesis Hinv : spin_inv c0 s.
Hypothesis Hi : threads s !! i = Some p.

Lemma spin_inv_silent p' evs :
  omap written evs = [] ->
  in_critical_section p' = in_critical_section p ->
  spin_ok (plock s) p' ->
  spin_inv c0 {| plock := plock s;
                 threads := <[i := p']> (threads s);
                 trace := trace s ++ map (pair i) evs |}.
Proof using Hinv Hi.
  intros Hev Hcs Hok. destruct Hinv as [Hr Ht Hm Hh Hw Hl].
  pose proof (lookup_lt_Some _ _ _ Hi) as Hlen.
  constructor; cbn [plock threads trace];
    rewrite ?writes_app, ?Hev, ?app_nil_r; try assumption.
  - intros j q Hj. apply lookup_insert_inv in Hj.
    destruct Hj as [[-> ->] | [Hne Hj]]; eauto.
  - intros j k q r Hj Hk Hq Hr'.
    apply lookup_insert_inv in Hj, Hk.
    destruct Hj as [[-> ->] | [Hnj Hj]], Hk as [[-> ->] | [Hnk Hk]];
      try reflexivity; rewrite ?Hcs in *; eauto.
  - intros Ho. destruct (Hh Ho) as (j & q & Hj & Hq).
    destruct (decide (j = i)) as [-> | Hne].
    + exists i, p'. rewrite list_lookup_insert_eq by exact Hlen.
      split; [reflexivity |]. rewrite Hcs. congruence.
    + exists j, q. rewrite list_lookup_insert_ne by auto. auto.
Qed.

Lemma spin_inv_acquire old :
  p = WS_cas old -> plock s = old -> in_range old -> Z.even old = true ->
  spin_inv c0
    {| plock := uint_add old 1;
       threads := <[i := W_block old]> (threads s);
       trace := trace s ++
         map (pair i)
           [atomic_compare_exchange_n old (uint_add old 1) true
              ATOMIC_ACQUIRE ATOMIC_RELAXED true] |}.
Proof using Hinv Hi.
  intros -> Hc Hro Heo. destruct Hinv as [Hr Ht Hm Hh Hw Hl].
  pose proof (lookup_lt_Some _ _ _ Hi) as Hlen.
  assert (Hfree : forall j q, threads s !! j = Some q ->
                              in_critical_section q = true -> False).
  { intros j q Hj Hq. apply (even_not_odd (plock s)); [congruence |].
    apply (spin_ok_inside_odd _ q Hq), (Ht _ _ Hj). }
  constructor; cbn [plock threads trace]; rewrite ?writes_app;
    cbn [omap written list_omap].
  - apply uint_add_in_range.
  - intros j q Hj. apply lookup_insert_inv in Hj.
    destruct Hj as [[-> ->] | [Hne Hj]].
    + simpl. rewrite even_uint_add_1 by assumption. auto.
    + destruct (in_critical_section q) eqn:Hq; [destruct (Hfree _ _ Hj Hq) |].
      eapply spin_ok_outside; eauto.
  - intros j k q r Hj Hk Hq Hr'.
    apply lookup_insert_inv in Hj, Hk.
    destruct Hj as [[-> ->] | [Hnj Hj]], Hk as [[-> ->] | [Hnk Hk]];
      try reflexivity; exfalso; eauto.
  - intros _. exists i, (W_block old).
    rewrite list_lookup_insert_eq by exact Hlen. auto.
  - rewrite length_app. simpl length.
    rewrite Nat.add_1_r, count_up_S, <- Hw. f_equal. f_equal.
    rewrite <- Hc, Hl at 1. apply uint_add_wrap_l_nat.
  - rewrite length_app. simpl length. rewrite Nat.add_1_r.
    rewrite <- Hc, Hl at 1. apply uint_add_wrap_l_nat.
Qed.

Lemma spin_inv_release old :
  p = WU_store old -> plock s = old + 1 -> in_range old ->
  Z.even old = true ->
  spin_inv c0
    {| plock := uint_add old 2;
       threads := <[i := Done]> (threads s);
       trace := trace s ++
         map (pair i) [atomic_store_n (uint_add old 2) ATOMIC_RELEASE] |}.
Proof using Hinv Hi.
  intros -> Hc Hro Heo. destruct Hinv as [Hr Ht Hm Hh Hw Hl].
  assert (Hnext : uint_add old 2 = uint_add (plock s) 1).
  { rewrite Hc, <- (even_uint_add_1 old) by assumption.
    symmetry. apply uint_add_1_1. }
  constructor; cbn [plock threads trace]; rewrite ?writes_app;
    cbn [omap written list_omap].
  - apply uint_add_in_range.
  - intros j q Hj. apply lookup_insert_inv in Hj.
    destruct Hj as [[-> ->] | [Hne Hj]]; [exact I |].
    destruct (in_critical_section q) eqn:Hq.
    + exfalso. apply Hne. eapply Hm; eauto.
    + eapply spin_ok_outside; eauto.
  - intros j k q r Hj Hk Hq Hr'.
    apply lookup_insert_inv in Hj, Hk.
    destruct Hj as [[-> ->] | [Hnj Hj]], Hk as [[-> ->] | [Hnk Hk]];
      try reflexivity; try discriminate; eauto.
  - intros Ho. exfalso.
    apply (even_not_odd _ (even_uint_add_2 old Hro Heo) Ho).
  - rewrite length_app. simpl length.
    rewrite Nat.add_1_r, count_up_S, <- Hw. f_equal. f_equal.
    rewrite Hnext, Hl at 1. apply uint_add_wrap_l_nat.
  - rewrite length_app. simpl length. rewrite Nat.add_1_r.
    rewrite Hnext, Hl at 1. apply uint_add_wrap_l_nat.
Qed.

End SpinPreservation.

Lemma spin_inv_step tgt c0 ch s :
  spin_inv c0 s -> spin_inv c0 (step tgt ch s).
Proof.
  intros Hinv. destruct ch as [i sp].
  destruct (threads s !! i) as [p |] eqn:Hi;
    [| rewrite step_none by exact Hi; assumption].
  rewrite (step_some _ _ _ _ _ Hi).
  pose proof (spin_thread_step tgt sp p (plock s)
                (inv_range _ _ Hinv) (inv_threads _ _ Hinv _ _ Hi)) as E.
  destruct (thread_step tgt sp p (plock s)) as [[p' c'] evs].
  inversion E; subst.
  - eapply spin_inv_silent; eauto.
  - eapply spin_inv_acquire; eauto.
  - eapply spin_inv_release; eauto.
Qed.

Lemma spin_inv_run tgt c0 sched s :
  spin_inv c0 s -> spin_inv c0 (run tgt sched s).
Proof.
  revert s. induction sched as [| ch sched IH]; intros s H; simpl;
    [exact H | apply IH, spin_inv_step, H].
Qed.

Lemma spin_inv_init c0 ts :
  in_range c0 -> Z.even c0 = true -> spinning_pool ts ->
  spin_inv c0 (System c0 ts []).
Proof.
  intros Hr He Hts.
  assert (Hstart : forall i p, ts !! i = Some p -> p = WS_load \/ p = RL_load).
  { intros i p Hi. eapply Forall_lookup_1 in Hts; eauto. }
  constructor; simpl.
  - exact Hr.
  - intros i p Hi. destruct (Hstart _ _ Hi) as [-> | ->]; exact I.
  - intros i j p q Hi _ Hp. destruct (Hstart _ _ Hi) as [-> | ->]; discriminate.
  - intros Ho. exfalso. eapply even_not_odd; eauto.
  - reflexivity.
  - rewrite Z.add_0_r. symmetry. apply wrap_small, Hr.
Qed.

(** ** The read side never writes *)

Lemma read_thread_step tgt sp p c :
  read_side p = true ->
  let '(p', c', evs) := thread_step tgt sp p c in
  read_side p' = true /\ c' = c /\ omap written evs = [].
Proof.
  unfold thread_step. destruct p; simpl; try discriminate; intros _; auto.
  destruct (negb (old =? c)); auto.
Qed.

(** ** Single-writer pools *)

Lemma scheduled_cons w ch sched :
  scheduled w (ch :: sched) =
  ((if decide (fst ch = w) then 1 else 0) + scheduled w sched)%nat.
Proof.
  unfold scheduled. destruct (decide (fst ch = w)) as [E | E].
  - rewrite filter_cons_True by exact E. reflexivity.
  - rewrite filter_cons_False by exact E. reflexivity.
Qed.

Lemma single_inv_writer_step tgt C w k sp s :
  single_inv C w k s -> single_inv C w (S k) (step tgt (w, sp) s).
Proof.
  intros [Hp Hl He Hw Hr].
  pose proof (lookup_lt_Some _ _ _ Hp) as Hlen.
  rewrite (step_some _ _ _ _ _ Hp).
  assert (Hothers : forall p', forall i p, i <> w ->
            <[w := p']> (threads s) !! i = Some p -> read_side p = true).
  { intros p' i p Hne Hi. rewrite list_lookup_insert_ne in Hi by auto. eauto. }
  destruct s as [c ts tr]. cbn [plock threads trace] in *.
  do 6 (try destruct k as [| k]);
    cbn [write_pair_pc write_pair_lock thread_step kroki_seqlock_write_lock kroki_seqlock_write_lock_spin kroki_seqlock_write_unlock kroki_seqlock_read_lock kroki_seqlock_read_unlock caller_block] in *; subst c;
    (constructor; cbn [plock threads trace];
     [ rewrite list_lookup_insert_eq by exact Hlen; reflexivity
     | cbn [write_pair_lock]; auto using uint_add_1_1
     | rewrite events_of_app, decide_True, He by reflexivity;
       unfold write_pair_events; cbn; rewrite ?take_nil; reflexivity
     | rewrite writes_app, Hw;
       unfold write_pair_events; cbn; rewrite ?take_nil; reflexivity
     | apply Hothers ]).
Qed.

Lemma single_inv_reader_step tgt C w k i sp s :
  i <> w -> single_inv C w k s -> single_inv C w k (step tgt (i, sp) s).
Proof.
  intros Hne [Hp Hl He Hw Hr].
  destruct (threads s !! i) as [p |] eqn:Hi;
    [| rewrite step_none by exact Hi; constructor; assumption].
  rewrite (step_some _ _ _ _ _ Hi).
  pose proof (read_thread_step tgt sp p (plock s) (Hr _ _ Hne Hi)) as E.
  destruct (thread_step tgt sp p (plock s)) as [[p' c'] evs].
  destruct E as (Hp' & -> & Hev).
  constructor; cbn [plock threads trace].
  - rewrite list_lookup_insert_ne by exact Hne. exact Hp.
  - exact Hl.
  - rewrite events_of_app, decide_False, app_nil_r by exact Hne. exact He.
  - rewrite writes_app, Hev, app_nil_r. exact Hw.
  - intros j q Hj Hq. apply lookup_insert_inv in Hq.
    destruct Hq as [[-> ->] | [_ Hq]]; eauto.
Qed.

Lemma single_inv_run tgt C w sched : forall k s,
  single_inv C w k s ->
  single_inv C w (k + scheduled w sched) (run tgt sched s).
Proof.
  induction sched as [| [i sp] sched IH]; intros k s H; simpl run.
  - unfold scheduled. simpl. rewrite Nat.add_0_r. exact H.
  - rewrite scheduled_cons. simpl fst.
    destruct (decide (i = w)) as [-> | Hne].
    + replace (k + (1 + scheduled w sched))%nat
        with (S k + scheduled w sched)%nat by lia.
      apply IH, single_inv_writer_step, H.
    + apply IH, single_inv_reader_step; assumption.
Qed.

Lemma single_inv_init C w ts :
  single_writer_pool w ts -> single_inv C w 0 (System C ts []).
Proof.
  intros [Hw Hothers]. constructor; simpl; auto.
  intros i p Hne Hi. rewrite (Hothers _ _ Hne Hi). reflexivity.
Qed.

Lemma spin_effect_lock c p p' c' evs :
  spin_effect c p (p', c', evs) -> c' = c \/ c' = uint_add c 1.
Proof.
  inversion 1; subst; auto; right.
  rewrite <- (even_uint_add_1 old) by assumption. symmetry. apply uint_add_1_1.
Qed.

Lemma spin_step_lock tgt c0 ch s :
  spin_inv c0 s ->
  plock (step tgt ch s) = plock s \/
  plock (step tgt ch s) = uint_add (plock s) 1.
Proof.
  intros Hinv. destruct ch as [i sp].
  destruct (threads s !! i) as [p |] eqn:Hi;
    [| rewrite step_none by exact Hi; auto].
  rewrite (step_some _ _ _ _ _ Hi).
  pose proof (spin_thread_step tgt sp p (plock s)
                (inv_range _ _ Hinv) (inv_threads _ _ Hinv _ _ Hi)) as E.
  destruct (thread_step tgt sp p (plock s)) as [[p' c'] evs].
  apply spin_effect_lock in E. exact E.
Qed.

Lemma write_pair_lock_S C k :
  write_pair_lock C (S k) = write_pair_lock C k \/
  write_pair_lock C (S k) = uint_add (write_pair_lock C k) 1.
Proof.
  do 6 (try destruct k as [| k]); cbn [write_pair_lock]; auto.
  right. symmetry. apply uint_add_1_1.
Qed.

Lemma write_pair_lock_in_range C k :
  in_range C -> in_range (write_pair_lock C k).
Proof.
  intros HC. do 6 (try destruct k as [| k]); cbn [write_pair_lock];
    auto using uint_add_in_range.
Qed.

Lemma single_step_lock tgt C w k ch s :
  single_inv C w k s ->
  plock (step tgt ch s) = plock s \/
  plock (step tgt ch s) = uint_add (plock s) 1.
Proof.
  intros Hinv. destruct ch as [i sp]. destruct (decide (i = w)) as [-> | Hne].
  - rewrite (sw_lock _ _ _ _ (single_inv_writer_step tgt C w k sp s Hinv)).
    rewrite (sw_lock _ _ _ _ Hinv). apply write_pair_lock_S.
  - rewrite (sw_lock _ _ _ _ (single_inv_reader_step tgt C w k i sp s Hne Hinv)).
    rewrite (sw_lock _ _ _ _ Hinv). auto.
Qed.

Lemma increase_or_wrap c c' :
  in_range c -> c' = c \/ c' = uint_add c 1 ->
  c <= c' \/ (c = UINT_MODULUS - 1 /\ c' = 0).
Proof. intros Hc [-> | ->]; range_unfold; zlia. Qed.

(** ** One thread against the values it meets *)

Lemma thread_run_cons tgt sp c obs p :
  thread_run tgt ((sp, c) :: obs) p =
  (fst (thread_run tgt obs (fst (fst (thread_step tgt sp p c)))),
   snd (thread_step tgt sp p c) ++
   snd (thread_run tgt obs (fst (fst (thread_step tgt sp p c))))).
Proof.
  simpl. destruct (thread_step tgt sp p c) as [[p' c'] evs]. simpl.
  destruct (thread_run tgt obs p'). reflexivity.
Qed.

Lemma thread_run_app tgt obs1 obs2 p :
  thread_run tgt (obs1 ++ obs2) p =
  (fst (thread_run tgt obs2 (fst (thread_run tgt obs1 p))),
   snd (thread_run tgt obs1 p) ++
   snd (thread_run tgt obs2 (fst (thread_run tgt obs1 p)))).
Proof.
  revert p. induction obs1 as [| [sp c] obs1 IH]; intros p.
  - simpl. destruct (thread_run tgt obs2 p). reflexivity.
  - rewrite <- app_comm_cons, !thread_run_cons, IH. simpl.
    rewrite app_assoc. reflexivity.
Qed.

Lemma thread_run_Done tgt obs : thread_run tgt obs Done = (Done, []).
Proof.
  induction obs as [| [sp c] obs IH]; [reflexivity |].
  rewrite thread_run_cons. simpl. rewrite IH. reflexivity.
Qed.

(** In a pool, a thread does what [thread_run] says on the values it
    meets. *)
Lemma run_thread_run tgt i sched : forall s p,
  threads s !! i = Some p ->
  threads (run tgt sched s) !! i =
    Some (fst (thread_run tgt (observations tgt i sched s) p)) /\
  events_of i (trace (run tgt sched s)) =
    events_of i (trace s) ++
    snd (thread_run tgt (observations tgt i sched s) p).
Proof.
  induction sched as [| [j sp] sched IH]; intros s p Hi.
  - simpl. rewrite app_nil_r. auto.
  - cbn [run observations fst snd].
    destruct (decide (j = i)) as [-> | Hne].
    + pose proof (lookup_lt_Some _ _ _ Hi) as Hlen.
      cbn [app]. rewrite thread_run_cons. cbn [fst snd].
      rewrite (step_some _ _ _ _ _ Hi).
      destruct (thread_step tgt sp p (plock s)) as [[p' c'] evs] eqn:E.
      cbn [fst snd].
      match goal with |- context [run tgt sched ?s1] =>
        destruct (IH s1 p') as [H1 H2] end.
      { cbn [threads]. apply list_lookup_insert_eq, Hlen. }
      rewrite H1, H2. cbn [trace].
      rewrite events_of_app, decide_True, app_assoc by reflexivity. auto.
    + cbn [app].
      assert (Hi' : threads (step tgt (j, sp) s) !! i = Some p /\
                    events_of i (trace (step tgt (j, sp) s)) =
                    events_of i (trace s)).
      { destruct (threads s !! j) as [q |] eqn:Hj;
          [| rewrite step_none by exact Hj; auto].
        rewrite (step_some _ _ _ _ _ Hj).
        destruct (thread_step tgt sp q (plock s)) as [[q' c'] evs].
        cbn [threads trace].
        rewrite list_lookup_insert_ne, events_of_app, decide_False, app_nil_r
          by auto. auto. }
      destruct Hi' as [Hi' Hev].
      destruct (IH _ p Hi') as [H1 H2]. rewrite H1, H2, Hev. auto.
Qed.

Lemma length_observations tgt i sched : forall s,
  length (observations tgt i sched s) = scheduled i sched.
Proof.
  induction sched as [| [j sp] sched IH]; intros s; [reflexivity |].
  cbn [observations]. rewrite length_app, IH, scheduled_cons.
  cbn [fst]. destruct (decide (j = i)); reflexivity.
Qed.

Lemma read_thread_events tgt sp p c :
  read_side p = true ->
  Forall (fun e => read_event e = true) (snd (thread_step tgt sp p c)).
Proof.
  unfold thread_step. destruct p; simpl; try discriminate; intros _;
    try destruct (negb (_ =? _)); repeat constructor.
Qed.





Lemma spin_round tgt sp v e :
  v <> e ->
  spin_expected v = e ->
  thread_run tgt [(sp, v); (sp, v); (sp, v)] (WS_cas e) =
  (WS_cas e, failed_round tgt e v).
Proof.
  intros Hne He. apply Z.eqb_neq in Hne.
  rewrite !thread_run_cons. cbn [thread_step kroki_seqlock_write_lock kroki_seqlock_write_lock_spin kroki_seqlock_write_unlock kroki_seqlock_read_lock kroki_seqlock_read_unlock caller_block thread_run].
  rewrite Hne. cbn [andb fst snd thread_step kroki_seqlock_write_lock kroki_seqlock_write_lock_spin kroki_seqlock_write_unlock kroki_seqlock_read_lock kroki_seqlock_read_unlock caller_block]. rewrite He.
  unfold failed_round. rewrite app_nil_r. reflexivity.
Qed.

Lemma spin_rounds tgt sp v e n :
  v <> e ->
  spin_expected v = e ->
  thread_run tgt (concat (repeat [(sp, v); (sp, v); (sp, v)] n)) (WS_cas e) =
  (WS_cas e, concat (repeat (failed_round tgt e v) n)).
Proof.
  intros Hne He. induction n as [| n IH]; [reflexivity |].
  cbn [repeat concat].
  rewrite thread_run_app, (spin_round tgt sp v e Hne He).
  cbn [fst snd]. rewrite IH. reflexivity.
Qed.

Lemma write_pair_complete C k :
  (6 <= k)%nat ->
  write_pair_pc C k = Done /\
  write_pair_lock C k = uint_add C 2 /\
  take k (write_pair_events C) = write_pair_events C.
Proof.
  intros Hk. do 6 (destruct k as [| k]; [lia |]).
  unfold write_pair_events. cbn. rewrite take_nil. auto.
Qed.

Lemma read_first_iteration tgt s1 c1 s2 c2 s3 c3 s4 c4 s5 c5 rest :
  thread_run tgt
    ((s1, c1) :: (s2, c2) :: (s3, c3) :: (s4, c4) :: (s5, c5) :: rest)
    RL_load =
  let next := if read_baseline c1 =? c5 then Done
              else R_block (read_baseline c5) in
  (fst (thread_run tgt rest next),
   [atomic_load_n c1 ATOMIC_ACQUIRE; user_block;
    atomic_signal_fence ATOMIC_ACQ_REL;
    atomic_load_n c4 ATOMIC_ACQUIRE; atomic_load_n c5 ATOMIC_ACQUIRE]
   ++ snd (thread_run tgt rest next)).
Proof.
  rewrite !thread_run_cons. cbn [thread_step kroki_seqlock_write_lock kroki_seqlock_write_lock_spin kroki_seqlock_write_unlock kroki_seqlock_read_lock kroki_seqlock_read_unlock caller_block fst snd].
  destruct (read_baseline c1 =? c5); reflexivity.
Qed.

Lemma read_events_write_nothing (new : list (nat * event)) :
  Forall (fun te => read_event (snd te) = true) new -> writes new = [].
Proof.
  induction 1 as [| [i e] new He _ IH]; [reflexivity |].
  simpl in He.
  assert (Hnone : written e = None)
    by (destruct e as [? [] | | | [] | |]; try discriminate; reflexivity).
  unfold writes in *. simpl. rewrite Hnone. exact IH.
Qed.

Lemma read_step tgt s i sp p :
  threads s !! i = Some p -> read_side p = true ->
  exists p' evs,
    step tgt (i, sp) s =
      {| plock := plock s; threads := <[i := p']> (threads s);
         trace := trace s ++ map (pair i) evs |} /\
    read_side p' = true /\
    Forall (fun e => read_event e = true) evs.
Proof.
  intros Hi Hp. rewrite (step_some _ _ _ _ _ Hi).
  pose proof (read_thread_step tgt sp p (plock s) Hp) as E.
  pose proof (read_thread_events tgt sp p (plock s) Hp) as F.
  destruct (thread_step tgt sp p (plock s)) as [[p' c'] evs].
  destruct E as (Hp' & -> & _). exists p', evs. auto.
Qed.

Lemma read_run tgt sched : forall s,
  Forall (fun ch => exists p, threads s !! fst ch = Some p /\
                              read_side p = true) sched ->
  plock (run tgt sched s) = plock s /\
  exists new,
    trace (run tgt sched s) = trace s ++ new /\
    Forall (fun te => read_event (snd te) = true) new.
Proof.
  induction sched as [| [i sp] sched IH]; intros s H; simpl run.
  - split; [reflexivity |]. exists []. rewrite app_nil_r. auto.
  - inversion H as [| ch l (p & Hi & Hp) Hrest]; subst. simpl in Hi.
    destruct (read_step tgt s i sp p Hi Hp) as (p' & evs & -> & Hp' & Hev).
    pose proof (lookup_lt_Some _ _ _ Hi) as Hlen.
    match goal with |- context [run tgt sched ?s1] => destruct (IH s1) as
        (Hl & new & Htr & Hnew) end.
    + eapply Forall_impl; [exact Hrest |].
      intros [j sp'] (q & Hj & Hq). cbn [fst threads] in *.
      destruct (decide (j = i)) as [-> | Hne].
      * exists p'. rewrite list_lookup_insert_eq by exact Hlen. auto.
      * exists q. rewrite list_lookup_insert_ne by auto. auto.
    + rewrite Hl, Htr. cbn [plock trace]. split; [reflexivity |].
      exists (map (pair i) evs ++ new). rewrite app_assoc.
      split; [reflexivity |]. apply Forall_app. split; [| exact Hnew].
      apply Forall_map. exact Hev.
Qed.

(** * Properties of the specification *)

(** C1.  Writers that use [kroki_seqlock_write_lock_spin] followed by
    [kroki_seqlock_write_unlock] exclude each other.  Start any number of
    such writers (and readers) on an even lock word [c0] and run them under
    any schedule, with any spurious failures of the weak compare-and-swap.
    In the state reached: at most one thread is inside its critical section
    (past its successful compare-and-swap and before its unlocking store);
    the lock word is odd exactly when some thread is inside; and the values
    written to the lock word so far are [c0+1, c0+2, c0+3, ...] in this
    order, each written once, the lock word holding the last one: every odd
    value is entered once and is followed by the next even value. *)
Theorem spin_writers_exclude_each_other
    (tgt : target) (c0 : kroki_seqlock_t) (ts : list pc)
    (sched : list choice) :
  in_range c0 -> Z.even c0 = true -> spinning_pool ts ->
  let s := run tgt sched (System c0 ts []) in
  (forall i j p q,
      threads s !! i = Some p -> threads s !! j = Some q ->
      in_critical_section p = true -> in_critical_section q = true ->
      i = j) /\
  (Z.odd (plock s) = true <->
   exists i p, threads s !! i = Some p /\ in_critical_section p = true) /\
  writes (trace s) = count_up c0 (length (writes (trace s))) /\
  plock s = wrap (c0 + Z.of_nat (length (writes (trace s)))).
Proof.
  intros Hr He Hts s.
  pose proof (spin_inv_run tgt c0 sched _ (spin_inv_init c0 ts Hr He Hts))
    as [Hrange Hthreads Hmutex Hholder Hwrites Hlock].
  fold s in Hrange, Hthreads, Hmutex, Hholder, Hwrites, Hlock.
  repeat split; try assumption.
  intros (i & p & Hi & Hp).
  exact (spin_ok_inside_odd _ p Hp (Hthreads _ _ Hi)).
Qed.

(** Two writers from lock word 0: the first enters with 0 -> 1 while the
    second fails, reloads 1, waits for 2 and enters with 2 -> 3 after the
    first has stored 2. *)
Lemma spin_writers_exclude_each_other_witness :
  in_range 0 /\ Z.even 0 = true /\ spinning_pool [WS_load; WS_load] /\
  let s := run X86
             [(0%nat, false); (1%nat, false); (0%nat, false); (1%nat, false);
              (1%nat, false); (1%nat, false); (1%nat, false); (0%nat, false);
              (0%nat, false); (1%nat, false); (1%nat, false); (1%nat, false)]
             (System 0 [WS_load; WS_load] []) in
  (forall i j p q,
      threads s !! i = Some p -> threads s !! j = Some q ->
      in_critical_section p = true -> in_critical_section q = true ->
      i = j) /\
  (Z.odd (plock s) = true <->
   exists i p, threads s !! i = Some p /\ in_critical_section p = true) /\
  writes (trace s) = count_up 0 (length (writes (trace s))) /\
  plock s = wrap (0 + Z.of_nat (length (writes (trace s)))).
Proof.
  assert (Hr : in_range 0) by (range_unfold; lia).
  assert (Hts : spinning_pool [WS_load; WS_load])
    by (repeat constructor; auto).
  split; [exact Hr |]. split; [reflexivity |]. split; [exact Hts |].
  exact (spin_writers_exclude_each_other X86 0 [WS_load; WS_load] _
           Hr eq_refl Hts).
Defined.

(** C2.  A single writer that runs [kroki_seqlock_write_lock], its block and
    [kroki_seqlock_write_unlock] from the even lock word [C], alone or with
    readers interleaved, leaves the lock word at [C + 2] on [unsigned int]
    (that is [C + 2] itself unless [C = 2^32 - 2]), which is even again.
    The pair always completes after six steps of the writer; its last event,
    the only one of [kroki_seqlock_write_unlock], is one release store of
    the value loaded by the lock plus 2. *)
Theorem write_lock_unlock_adds_two
    (tgt : target) (C : kroki_seqlock_t) (w : nat) (ts : list pc)
    (sched : list choice) :
  in_range C -> Z.even C = true -> single_writer_pool w ts ->
  (6 <= scheduled w sched)%nat ->
  let s := run tgt sched (System C ts []) in
  threads s !! w = Some Done /\
  plock s = uint_add C 2 /\
  (C + 2 < UINT_MODULUS -> plock s = C + 2) /\
  Z.even (plock s) = true /\
  events_of w (trace s) =
    [ atomic_load_n C ATOMIC_RELAXED;
      atomic_store_n (uint_add C 1) ATOMIC_RELAXED;
      atomic_store_n (uint_add C 1) ATOMIC_RELEASE;
      atomic_signal_fence ATOMIC_ACQ_REL;
      user_block;
      atomic_store_n (uint_add C 2) ATOMIC_RELEASE ] /\
  (forall sp c, thread_step tgt sp (WU_store C) c =
     (Done, uint_add C 2, [atomic_store_n (uint_add C 2) ATOMIC_RELEASE])).
Proof.
  intros Hr He Hts Hk s.
  pose proof (single_inv_run tgt C w sched 0 _ (single_inv_init C w ts Hts))
    as [Hpc Hlock Hev _ _].
  fold s in Hpc, Hlock, Hev. simpl in Hpc, Hlock, Hev.
  destruct (write_pair_complete C _ Hk) as (E1 & E2 & E3).
  rewrite E1 in Hpc. rewrite E2 in Hlock. rewrite E3 in Hev.
  repeat split; try assumption.
  - intros Hsmall. rewrite Hlock. range_unfold. zlia.
  - rewrite Hlock. apply even_uint_add_2; assumption.
Qed.

Lemma write_lock_unlock_adds_two_witness :
  in_range 0 /\ Z.even 0 = true /\ single_writer_pool 0 [WL_load; RL_load] /\
  (6 <= scheduled 0 (repeat (0%nat, false) 6))%nat /\
  plock (run X86 (repeat (0%nat, false) 6) (System 0 [WL_load; RL_load] []))
  = 2.
Proof.
  assert (Hr : in_range 0) by (range_unfold; lia).
  assert (Hts : single_writer_pool 0 [WL_load; RL_load]).
  { split; [reflexivity |]. intros [| [| i]] p Hne Hi;
      [contradiction | injection Hi as <-; reflexivity | discriminate]. }
  assert (Hk : (6 <= scheduled 0 (repeat (0%nat, false) 6))%nat)
    by (vm_compute; lia).
  split; [exact Hr |]. split; [reflexivity |]. split; [exact Hts |].
  split; [exact Hk |].
  exact (proj1 (proj2 (write_lock_unlock_adds_two X86 0 0 [WL_load; RL_load]
                         (repeat (0%nat, false) 6) Hr eq_refl Hts Hk))).
Defined.

Lemma spin_failed_round tgt e c sp1 sp2 c2 sp3 c3 :
  (c =? e) && negb sp1 = false ->
  thread_run tgt [(sp1, c); (sp2, c2); (sp3, c3)] (WS_cas e) =
  (WS_cas (spin_expected c3),
   atomic_compare_exchange_n e (uint_add e 1) true
     ATOMIC_ACQUIRE ATOMIC_RELAXED false
   :: _kroki_seqlock_pause tgt ++ [atomic_load_n c3 ATOMIC_RELAXED]).
Proof.
  intros Hfail. rewrite !thread_run_cons.
  cbn [thread_step kroki_seqlock_write_lock kroki_seqlock_write_lock_spin kroki_seqlock_write_unlock kroki_seqlock_read_lock kroki_seqlock_read_unlock caller_block thread_run].
  rewrite Hfail.
  cbn [thread_step kroki_seqlock_write_lock kroki_seqlock_write_lock_spin kroki_seqlock_write_unlock kroki_seqlock_read_lock kroki_seqlock_read_unlock caller_block fst snd].
  rewrite app_nil_r. reflexivity.
Qed.

Lemma spin_loop_step tgt sp p c :
  in_spin_loop p = true ->
  Forall (fun e => exchanged e = false) (snd (thread_step tgt sp p c)) ->
  in_spin_loop (fst (fst (thread_step tgt sp p c))) = true.
Proof.
  unfold thread_step. destruct p; simpl; try discriminate; auto.
  destruct ((c =? old) && negb sp); simpl; [| reflexivity].
  intros _ H. inversion H; subst. discriminate.
Qed.

Lemma spin_loop_run tgt obs : forall p,
  in_spin_loop p = true ->
  Forall (fun e => exchanged e = false) (snd (thread_run tgt obs p)) ->
  in_spin_loop (fst (thread_run tgt obs p)) = true.
Proof.
  induction obs as [| [sp c] obs IH]; intros p Hp Hno; [exact Hp |].
  rewrite thread_run_cons in *. cbn [fst snd] in *.
  apply Forall_app in Hno. destruct Hno as [Hstep Hrest].
  apply IH; [| exact Hrest]. apply spin_loop_step; assumption.
Qed.

(** C3.  [kroki_seqlock_write_lock_spin] expects, for a loaded value [v],
    [v] itself when [v] is even and [v + 1] on [unsigned int] when [v] is
    odd (the next even value; it is [v + 1] itself unless [v = 2^32 - 1]).
    Its compare-and-swap goes from the expected value to the expected value
    plus 1, weak, with acquire order on success and relaxed order on
    failure.  Whenever the lock word holds the expected value and the
    attempt does not fail spuriously, the word becomes the expected value
    plus 1 and the thread enters its block.  Whenever the attempt fails,
    because the lock word [c] differs from the expected value [e] or
    spuriously, the thread executes the pause hint (no event off x86) and
    then a relaxed load; its next attempt expects the value computed from
    the value [c3] this load returned, not from [e] and not from the value
    [c] the failed attempt found.  As long as no compare-and-swap has
    exchanged, the thread is in the loop, for any number of steps; while
    the lock word holds one odd value [v] the thread fails any number [n]
    of rounds in a row. *)
Theorem write_lock_spin_retries
    (tgt : target) (v : kroki_seqlock_t) (sp : bool) (n : nat) :
  in_range v ->
  spin_expected v = (if Z.even v then v else uint_add v 1) /\
  (v < UINT_MODULUS - 1 -> uint_add v 1 = v + 1) /\
  Z.even (spin_expected v) = true /\
  _kroki_seqlock_pause X86 = [builtin_ia32_pause] /\
  _kroki_seqlock_pause Other = [] /\
  thread_step tgt sp WS_load v =
    (WS_cas (spin_expected v), v, [atomic_load_n v ATOMIC_RELAXED]) /\
  thread_step tgt false (WS_cas (spin_expected v)) (spin_expected v) =
    (W_block (spin_expected v), uint_add (spin_expected v) 1,
     [atomic_compare_exchange_n (spin_expected v)
        (uint_add (spin_expected v) 1) true
        ATOMIC_ACQUIRE ATOMIC_RELAXED true]) /\
  (Z.odd v = true ->
   thread_run tgt
     ((sp, v) :: concat (repeat [(sp, v); (sp, v); (sp, v)] n)) WS_load =
   (WS_cas (uint_add v 1),
    atomic_load_n v ATOMIC_RELAXED ::
    concat (repeat
      (atomic_compare_exchange_n (uint_add v 1) (uint_add (uint_add v 1) 1)
         true ATOMIC_ACQUIRE ATOMIC_RELAXED false
       :: _kroki_seqlock_pause tgt ++ [atomic_load_n v ATOMIC_RELAXED])
      n))) /\
  (forall e c sp1,
      (c =? e) && negb sp1 = true ->
      thread_step tgt sp1 (WS_cas e) c =
        (W_block e, uint_add e 1,
         [atomic_compare_exchange_n e (uint_add e 1) true
            ATOMIC_ACQUIRE ATOMIC_RELAXED true])) /\
  (forall e c sp1 sp2 c2 sp3,
      (c =? e) && negb sp1 = false ->
      thread_run tgt [(sp1, c); (sp2, c2); (sp3, v)] (WS_cas e) =
        (WS_cas (if Z.even v then v else uint_add v 1),
         atomic_compare_exchange_n e (uint_add e 1) true
           ATOMIC_ACQUIRE ATOMIC_RELAXED false
         :: _kroki_seqlock_pause tgt ++ [atomic_load_n v ATOMIC_RELAXED])) /\
  (forall obs,
      Forall (fun e => exchanged e = false)
        (snd (thread_run tgt obs WS_load)) ->
      in_spin_loop (fst (thread_run tgt obs WS_load)) = true).
Proof.
  intros Hv. pose proof (spin_expected_spec v Hv) as Hspec.
  split; [exact Hspec |]. split; [intros Hs; range_unfold; zlia |].
  split; [apply spin_expected_even |]. do 3 (split; [reflexivity |]).
  split; [| split; [| split; [| split]]].
  - cbn [thread_step kroki_seqlock_write_lock kroki_seqlock_write_lock_spin kroki_seqlock_write_unlock kroki_seqlock_read_lock kroki_seqlock_read_unlock caller_block]. rewrite Z.eqb_refl. reflexivity.
  - intros Ho. rewrite <- Z.negb_odd, Ho in Hspec. cbn [negb] in Hspec.
    assert (Hne : v <> uint_add v 1).
    { intros Heq. apply (even_not_odd v); [| exact Ho].
      rewrite Heq, <- Hspec. apply spin_expected_even. }
    rewrite thread_run_cons. cbn [thread_step kroki_seqlock_write_lock kroki_seqlock_write_lock_spin kroki_seqlock_write_unlock kroki_seqlock_read_lock kroki_seqlock_read_unlock caller_block fst snd]. rewrite Hspec.
    rewrite (spin_rounds tgt sp v (uint_add v 1) n Hne Hspec).
    reflexivity.
  - intros e c sp1 Hok. cbn [thread_step kroki_seqlock_write_lock kroki_seqlock_write_lock_spin kroki_seqlock_write_unlock kroki_seqlock_read_lock kroki_seqlock_read_unlock caller_block]. rewrite Hok. reflexivity.
  - intros e c sp1 sp2 c2 sp3 Hfail. rewrite <- Hspec.
    apply spin_failed_round, Hfail.
  - intros obs Hno. apply spin_loop_run; [reflexivity | exact Hno].
Qed.

(** Lock word 1 (held by another writer): three failed rounds on x86.  And
    a round that expected 2 and found 1: the reload returns 4 and the next
    attempt expects 4; the same after a spurious failure at 2. *)
Lemma write_lock_spin_retries_witness :
  in_range 1 /\ Z.odd 1 = true /\
  thread_run X86
    ((false, 1) :: concat (repeat [(false, 1); (false, 1); (false, 1)] 3))
    WS_load =
  (WS_cas 2,
   atomic_load_n 1 ATOMIC_RELAXED ::
   concat (repeat
     [atomic_compare_exchange_n 2 3 true ATOMIC_ACQUIRE ATOMIC_RELAXED false;
      builtin_ia32_pause; atomic_load_n 1 ATOMIC_RELAXED] 3)) /\
  in_range 4 /\
  thread_run X86 [(false, 1); (false, 1); (false, 4)] (WS_cas 2) =
  (WS_cas 4,
   [atomic_compare_exchange_n 2 3 true ATOMIC_ACQUIRE ATOMIC_RELAXED false;
    builtin_ia32_pause; atomic_load_n 4 ATOMIC_RELAXED]) /\
  thread_run X86 [(true, 2); (false, 2); (false, 4)] (WS_cas 2) =
  (WS_cas 4,
   [atomic_compare_exchange_n 2 3 true ATOMIC_ACQUIRE ATOMIC_RELAXED false;
    builtin_ia32_pause; atomic_load_n 4 ATOMIC_RELAXED]).
Proof.
  assert (Hr : in_range 1) by (range_unfold; lia).
  assert (Hr4 : in_range 4) by (range_unfold; lia).
  destruct (write_lock_spin_retries X86 1 false 3 Hr)
    as (_ & _ & _ & _ & _ & _ & _ & Hodd & _).
  destruct (write_lock_spin_retries X86 4 false 0 Hr4)
    as (_ & _ & _ & _ & _ & _ & _ & _ & _ & Hround & _).
  split; [exact Hr |]. split; [reflexivity |].
  split; [exact (Hodd eq_refl) |]. split; [exact Hr4 |]. split.
  - exact (Hround 2 1 false false 1 false eq_refl).
  - exact (Hround 2 2 true false 2 false eq_refl).
Defined.

(** C4, as the specification words it, fails: the retry is not a
    re-execution from [kroki_seqlock_read_lock].  Baseline 4; the second
    load returns 7 and the lock word is 8 afterwards.  The thread goes on
    with the block, the fence and the first load of the unlock on the
    baseline 6; a thread re-executing [kroki_seqlock_read_lock] would load
    8 first and run the block on the baseline 8. *)
Lemma read_retry_is_not_from_read_lock :
  ~ (4 <> 7 ->
     reexecutes_from_read_lock X86 4 7 false [(false, 8); (false, 8)]).
Proof.
  intros H. assert (Hne : 4 <> 7) by lia. specialize (H Hne).
  unfold reexecutes_from_read_lock in H. vm_compute in H. discriminate H.
Qed.

(** C4, amended.  [kroki_seqlock_read_unlock] executes a signal fence
    (acquire and release: a compiler barrier) and two acquire loads of the
    lock word.  The value [c3] of the second load is compared with the
    recorded baseline [old].  When they differ the thread goes on at the
    caller's block, inside the loop that [kroki_seqlock_read_lock] opened
    and past the load of that macro: no load of the lock word precedes the
    block, whatever the lock word is by then, and the baseline of the new
    iteration is [c3] with its lowest bit cleared, [c3 - c3 mod 2], an even
    value; this is the state [kroki_seqlock_read_lock] leaves when its own
    load returns [c3].  When they are equal the loop is left and nothing of
    the pair is executed any more. *)
Theorem read_unlock_compares_with_baseline
    (tgt : target) (old : kroki_seqlock_t)
    (sp1 sp2 sp3 : bool) (c1 c2 c3 : kroki_seqlock_t) :
  in_range c3 ->
  thread_run tgt [(sp1, c1); (sp2, c2); (sp3, c3)] (RU_fence old) =
    (if old =? c3 then Done else R_block (c3 - c3 mod 2),
     [ atomic_signal_fence ATOMIC_ACQ_REL;
       atomic_load_n c2 ATOMIC_ACQUIRE;
       atomic_load_n c3 ATOMIC_ACQUIRE ]) /\
  Z.even (c3 - c3 mod 2) = true /\
  (old <> c3 ->
   forall rest,
     thread_run tgt ((sp3, c3) :: rest) (RU_load_second old) =
     (fst (thread_run tgt rest (R_block (c3 - c3 mod 2))),
      atomic_load_n c3 ATOMIC_ACQUIRE ::
      snd (thread_run tgt rest (R_block (c3 - c3 mod 2))))) /\
  thread_run tgt [(sp3, c3)] RL_load =
    (R_block (c3 - c3 mod 2), [atomic_load_n c3 ATOMIC_ACQUIRE]) /\
  (forall sp c, thread_run tgt [(sp, c)] (R_block (c3 - c3 mod 2)) =
                (RU_fence (c3 - c3 mod 2), [user_block])) /\
  (old = c3 ->
   forall rest,
     thread_run tgt ((sp3, c3) :: rest) (RU_load_second old) =
     (Done, [atomic_load_n c3 ATOMIC_ACQUIRE])) /\
  (forall obs, thread_run tgt obs Done = (Done, [])).
Proof.
  intros Hr.
  assert (Hb : read_baseline c3 = c3 - c3 mod 2) by (apply and_not_1_sub, Hr).
  rewrite <- Hb.
  split; [| split; [apply and_not_1_even, Hr |
            split; [| split; [reflexivity | split; [reflexivity | split]]]]].
  - cbn [thread_step kroki_seqlock_write_lock kroki_seqlock_write_lock_spin kroki_seqlock_write_unlock kroki_seqlock_read_lock kroki_seqlock_read_unlock caller_block thread_run]. destruct (old =? c3); reflexivity.
  - intros Hne rest. apply Z.eqb_neq in Hne. rewrite thread_run_cons.
    cbn [thread_step kroki_seqlock_write_lock kroki_seqlock_write_lock_spin kroki_seqlock_write_unlock kroki_seqlock_read_lock kroki_seqlock_read_unlock caller_block]. rewrite Hne. reflexivity.
  - intros -> rest. rewrite thread_run_cons. cbn [thread_step kroki_seqlock_write_lock kroki_seqlock_write_lock_spin kroki_seqlock_write_unlock kroki_seqlock_read_lock kroki_seqlock_read_unlock caller_block].
    rewrite Z.eqb_refl. cbn [negb fst snd]. rewrite thread_run_Done.
    reflexivity.
  - apply thread_run_Done.
Qed.

(** Baseline 4, the second load returns 7: the block runs again on the
    baseline 6 although the lock word is 8 by then. *)
Lemma read_unlock_compares_with_baseline_witness :
  in_range 7 /\ 4 <> 7 /\
  thread_run X86 [(false, 5); (false, 6); (false, 7)] (RU_fence 4) =
    (R_block 6,
     [ atomic_signal_fence ATOMIC_ACQ_REL;
       atomic_load_n 6 ATOMIC_ACQUIRE;
       atomic_load_n 7 ATOMIC_ACQUIRE ]) /\
  thread_run X86 [(false, 7); (false, 8)] (RU_load_second 4) =
    (RU_fence 6, [atomic_load_n 7 ATOMIC_ACQUIRE; user_block]).
Proof.
  assert (Hr : in_range 7) by (range_unfold; lia).
  assert (Hne : 4 <> 7) by lia.
  split; [exact Hr |]. split; [exact Hne |].
  destruct (read_unlock_compares_with_baseline X86 4 false false false 5 6 7
              Hr) as (H1 & _ & H3 & _).
  split; [exact H1 | exact (H3 Hne [(false, 8)])].
Defined.

(** C5.  Under the single-writer precondition, with the lock word at [C],
    the first four steps of the writer are those of
    [kroki_seqlock_write_lock]: a relaxed load, a relaxed store of [C + 1],
    a release store of [C + 1] and a signal fence (acquire and release: a
    two-way compiler barrier), after which the writer is at its block.
    Through these steps, however readers are interleaved, every value
    written to the lock word is [C + 1]; the lock word is [C] before the
    first store and [C + 1] from then on; and [C + 1] is odd when [C] is
    even. *)
Theorem write_lock_publishes_odd_value
    (tgt : target) (C : kroki_seqlock_t) (w : nat) (ts : list pc)
    (sched : list choice) :
  in_range C -> single_writer_pool w ts ->
  (scheduled w sched <= 4)%nat ->
  let s := run tgt sched (System C ts []) in
  let k := scheduled w sched in
  threads s !! w =
    nth_error [WL_load; WL_store_relaxed C; WL_store_release C;
               WL_fence C; W_block C] k /\
  events_of w (trace s) =
    take k [ atomic_load_n C ATOMIC_RELAXED;
             atomic_store_n (uint_add C 1) ATOMIC_RELAXED;
             atomic_store_n (uint_add C 1) ATOMIC_RELEASE;
             atomic_signal_fence ATOMIC_ACQ_REL ] /\
  writes (trace s) = take (k - 1) [uint_add C 1; uint_add C 1] /\
  plock s = (if (k <? 2)%nat then C else uint_add C 1) /\
  (Z.even C = true -> uint_add C 1 = C + 1 /\ Z.odd (uint_add C 1) = true).
Proof.
  intros Hr Hts Hk s k.
  pose proof (single_inv_run tgt C w sched 0 _ (single_inv_init C w ts Hts))
    as [Hpc Hlock Hev Hw _].
  fold s in Hpc, Hlock, Hev, Hw. simpl in Hpc, Hlock, Hev, Hw.
  fold k in Hpc, Hlock, Hev, Hw, Hk.
  rewrite Hpc, Hlock, Hev, Hw. clearbody k. clear - Hr Hk.
  split; [| split; [| split; [| split]]].
  - do 5 (try destruct k as [| k]); try reflexivity; lia.
  - do 5 (try destruct k as [| k]); try reflexivity; lia.
  - do 5 (try destruct k as [| k]); try reflexivity; lia.
  - do 5 (try destruct k as [| k]); try reflexivity; lia.
  - intros He. rewrite even_uint_add_1 by assumption.
    split; [reflexivity | apply even_succ_odd, He].
Qed.

Lemma write_lock_publishes_odd_value_witness :
  in_range 6 /\ single_writer_pool 0 [WL_load; RL_load] /\
  (scheduled 0 [(0%nat, false); (1%nat, false); (0%nat, false);
                (0%nat, false); (1%nat, false); (0%nat, false)] <= 4)%nat /\
  let s := run X86 [(0%nat, false); (1%nat, false); (0%nat, false);
                    (0%nat, false); (1%nat, false); (0%nat, false)]
             (System 6 [WL_load; RL_load] []) in
  threads s !! 0%nat = Some (W_block 6) /\
  writes (trace s) = [7; 7] /\ plock s = 7.
Proof.
  assert (Hr : in_range 6) by (range_unfold; lia).
  assert (Hts : single_writer_pool 0 [WL_load; RL_load]).
  { split; [reflexivity |]. intros [| [| i]] p Hne Hi;
      [contradiction | injection Hi as <-; reflexivity | discriminate]. }
  assert (Hk : (scheduled 0 [(0%nat, false); (1%nat, false); (0%nat, false);
                (0%nat, false); (1%nat, false); (0%nat, false)] <= 4)%nat)
    by (vm_compute; lia).
  split; [exact Hr |]. split; [exact Hts |]. split; [exact Hk |].
  destruct (write_lock_publishes_odd_value X86 6 0 [WL_load; RL_load] _
              Hr Hts Hk) as (H1 & _ & H3 & H4 & _).
  split; [exact H1 |]. split; [exact H3 | exact H4].
Defined.

(** C6.  [kroki_seqlock_read_lock] is one acquire load of the lock word; it
    never waits and leaves the lock word as it is.  For every value [v] the
    load can return, the recorded baseline [v & ~1] is even and is [v] with
    its lowest bit cleared: bit 0 is off, every other bit is that of [v],
    so it is [v] when [v] is even and [v - 1] when [v] is odd. *)
Theorem read_lock_records_even_baseline
    (tgt : target) (sp : bool) (v : kroki_seqlock_t) :
  in_range v ->
  thread_step tgt sp RL_load v =
    (R_block (read_baseline v), v, [atomic_load_n v ATOMIC_ACQUIRE]) /\
  Z.even (read_baseline v) = true /\
  read_baseline v = v - v mod 2 /\
  Z.testbit (read_baseline v) 0 = false /\
  (forall n, 0 < n ->
             Z.testbit (read_baseline v) n = Z.testbit v n).
Proof.
  intros Hv. split; [reflexivity |].
  split; [apply and_not_1_even, Hv |].
  split; [apply and_not_1_sub, Hv |]. unfold read_baseline.
  rewrite and_not_1_spec by exact Hv. split.
  - apply Z.testbit_even_0.
  - intros n Hn. replace n with (Z.succ (n - 1)) by lia.
    rewrite Z.double_bits_succ, Z.div2_bits by lia. reflexivity.
Qed.

Lemma read_lock_records_even_baseline_witness :
  in_range 7 /\
  thread_step Other false RL_load 7 =
    (R_block 6, 7, [atomic_load_n 7 ATOMIC_ACQUIRE]).
Proof.
  assert (Hr : in_range 7) by (range_unfold; lia).
  split; [exact Hr |].
  exact (proj1 (read_lock_records_even_baseline Other false 7 Hr)).
Defined.

Lemma read_clean_iteration tgt c obs :
  in_range c -> Z.even c = true -> (5 <= length obs)%nat ->
  (forall v mo,
      In (atomic_load_n v mo) (snd (thread_run tgt obs RL_load)) -> v = c) ->
  thread_run tgt obs RL_load =
    (Done,
     [ atomic_load_n c ATOMIC_ACQUIRE; user_block;
       atomic_signal_fence ATOMIC_ACQ_REL;
       atomic_load_n c ATOMIC_ACQUIRE; atomic_load_n c ATOMIC_ACQUIRE ]).
Proof.
  intros Hr He Hlen Hloads.
  destruct obs as [| [s1 c1] [| [s2 c2] [| [s3 c3] [| [s4 c4]
                  [| [s5 c5] rest]]]]]; simpl in Hlen; try lia.
  rewrite read_first_iteration in *. cbn zeta in *. cbn [snd] in Hloads.
  assert (c1 = c) as -> by (eapply Hloads; simpl; eauto).
  assert (c4 = c) as -> by (eapply Hloads; simpl; eauto 6).
  assert (c5 = c) as -> by (eapply Hloads; simpl; eauto 6).
  unfold read_baseline. rewrite and_not_1_fix, Z.eqb_refl by assumption.
  rewrite thread_run_Done. reflexivity.
Qed.

(** C7.  No false retry.  In any pool, whatever the other threads are and
    do, take a reader that starts [kroki_seqlock_read_lock] and a schedule
    that gives it the steps of one iteration (five).  If every load of the
    lock word by this reader returns the same even value [c], the reader has
    left the loop after the first iteration: its events are the load of the
    lock, one execution of the block, the fence and the two loads of the
    unlock, and nothing else. *)
Theorem read_without_writer_runs_once
    (tgt : target) (c c0 : kroki_seqlock_t) (ts : list pc) (i : nat)
    (sched : list choice) :
  in_range c -> Z.even c = true ->
  ts !! i = Some RL_load -> (5 <= scheduled i sched)%nat ->
  let s := run tgt sched (System c0 ts []) in
  (forall v mo, In (atomic_load_n v mo) (events_of i (trace s)) -> v = c) ->
  threads s !! i = Some Done /\
  events_of i (trace s) =
    [ atomic_load_n c ATOMIC_ACQUIRE; user_block;
      atomic_signal_fence ATOMIC_ACQ_REL;
      atomic_load_n c ATOMIC_ACQUIRE; atomic_load_n c ATOMIC_ACQUIRE ] /\
  count_blocks (events_of i (trace s)) = 1%nat.
Proof.
  intros Hr He Hi Hk s Hloads.
  destruct (run_thread_run tgt i sched (System c0 ts []) RL_load Hi)
    as [Hpc Hev].
  fold s in Hpc, Hev. cbn [trace events_of filter map app] in Hev.
  change (events_of i []) with (@nil event) in Hev. cbn [app] in Hev.
  rewrite Hev in Hloads.
  rewrite <- (length_observations tgt i sched (System c0 ts [])) in Hk.
  pose proof (read_clean_iteration tgt c _ Hr He Hk Hloads) as Hrun.
  rewrite Hrun in Hpc, Hev. rewrite Hpc, Hev. repeat split.
Qed.

(** Counter 0; the writer locks, writes and unlocks, the counter is 2; then
    the reader runs: every load returns 2 and the block runs once. *)
Lemma read_without_writer_runs_once_witness :
  in_range 2 /\ Z.even 2 = true /\
  [WL_load; RL_load] !! 1%nat = Some RL_load /\
  let s := run X86 (repeat (0%nat, false) 6 ++ repeat (1%nat, false) 5)
             (System 0 [WL_load; RL_load] []) in
  threads s !! 1%nat = Some Done /\
  events_of 1 (trace s) =
    [ atomic_load_n 2 ATOMIC_ACQUIRE; user_block;
      atomic_signal_fence ATOMIC_ACQ_REL;
      atomic_load_n 2 ATOMIC_ACQUIRE; atomic_load_n 2 ATOMIC_ACQUIRE ] /\
  count_blocks (events_of 1 (trace s)) = 1%nat.
Proof.
  assert (Hr : in_range 2) by (range_unfold; lia).
  split; [exact Hr |]. split; [reflexivity |]. split; [reflexivity |].
  refine (read_without_writer_runs_once X86 2 0 [WL_load; RL_load] 1
            (repeat (0%nat, false) 6 ++ repeat (1%nat, false) 5)
            Hr eq_refl eq_refl _ _).
  - vm_compute. lia.
  - intros v mo Hin. vm_compute in Hin.
    repeat (destruct Hin as [Hin | Hin]; [congruence |]). destruct Hin.
Defined.

(** C8.  The lock word is an [unsigned int] and every update is taken
    modulo [2^32]: both stores of [kroki_seqlock_write_lock] and a
    successful compare-and-swap of [kroki_seqlock_write_lock_spin] write
    the captured value plus 1, and [kroki_seqlock_write_unlock] writes the
    captured value plus 2, reduced modulo [2^32].  In a correctly paired
    pool (writers that all spin, or one writer that does not) started on an
    even lock word, every step leaves the lock word as it is or adds 1
    modulo [2^32]: the lock word never decreases except for the step from
    [2^32 - 1] to [0].  Locking and unlocking from [2^32 - 2] stores [0],
    which is even. *)
Theorem lock_word_increases_modulo
    (tgt : target) (c0 : kroki_seqlock_t) (ts : list pc)
    (sched : list choice) (ch : choice) :
  in_range c0 -> Z.even c0 = true ->
  spinning_pool ts \/ (exists w, single_writer_pool w ts) ->
  let s := run tgt sched (System c0 ts []) in
  let s' := step tgt ch s in
  (forall sp old c,
      snd (fst (thread_step tgt sp (WL_store_relaxed old) c)) =
        (old + 1) mod 2 ^ 32 /\
      snd (fst (thread_step tgt sp (WL_store_release old) c)) =
        (old + 1) mod 2 ^ 32 /\
      snd (fst (thread_step tgt false (WS_cas old) old)) =
        (old + 1) mod 2 ^ 32 /\
      snd (fst (thread_step tgt sp (WU_store old) c)) =
        (old + 2) mod 2 ^ 32) /\
  in_range (plock s) /\
  (plock s' = plock s \/ plock s' = (plock s + 1) mod 2 ^ 32) /\
  (plock s <= plock s' \/ (plock s = 2 ^ 32 - 1 /\ plock s' = 0)) /\
  plock (run tgt (repeat (0%nat, false) 6)
           (System (2 ^ 32 - 2) [WL_load] [])) = 0 /\
  plock (run tgt (repeat (0%nat, false) 4)
           (System (2 ^ 32 - 2) [WS_load] [])) = 0 /\
  Z.even 0 = true.
Proof.
  intros Hr He Hpool s s'.
  assert (Hstep : in_range (plock s) /\
                  (plock s' = plock s \/ plock s' = uint_add (plock s) 1)).
  { destruct Hpool as [Hts | [w Hts]].
    - pose proof (spin_inv_run tgt c0 sched _
                    (spin_inv_init c0 ts Hr He Hts)) as Hinv.
      split; [apply (inv_range _ _ Hinv) |].
      apply (spin_step_lock tgt c0 ch _ Hinv).
    - pose proof (single_inv_run tgt c0 w sched 0 _
                    (single_inv_init c0 w ts Hts)) as Hinv.
      split; [| apply (single_step_lock tgt c0 w _ ch _ Hinv)].
      fold s in Hinv. rewrite (sw_lock _ _ _ _ Hinv).
      apply write_pair_lock_in_range, Hr. }
  destruct Hstep as [Hrange Hstep].
  split; [| split; [exact Hrange | split; [exact Hstep | split]]].
  - intros sp old c. cbn [thread_step kroki_seqlock_write_lock kroki_seqlock_write_lock_spin kroki_seqlock_write_unlock kroki_seqlock_read_lock kroki_seqlock_read_unlock caller_block]. rewrite Z.eqb_refl.
    repeat split; reflexivity.
  - apply (increase_or_wrap _ _ Hrange Hstep).
  - destruct tgt; repeat split; reflexivity.
Qed.

(** A spinning writer that entered from [2^32 - 2]: its unlocking store
    takes the lock word from [2^32 - 1] to [0]. *)
Lemma lock_word_increases_modulo_witness :
  in_range 4294967294 /\ Z.even 4294967294 = true /\
  spinning_pool [WS_load] /\
  let s := run X86 (repeat (0%nat, false) 3)
             (System 4294967294 [WS_load] []) in
  let s' := step X86 (0%nat, false) s in
  plock s = 4294967295 /\ plock s' = 0 /\
  (plock s <= plock s' \/ (plock s = 2 ^ 32 - 1 /\ plock s' = 0)).
Proof.
  assert (Hr : in_range 4294967294) by (range_unfold; lia).
  assert (Hts : spinning_pool [WS_load]) by (repeat constructor; auto).
  split; [exact Hr |]. split; [reflexivity |]. split; [exact Hts |].
  split; [reflexivity |]. split; [reflexivity |].
  exact (proj1 (proj2 (proj2 (proj2
           (lock_word_increases_modulo X86 4294967294 [WS_load]
              (repeat (0%nat, false) 3) (0%nat, false)
              Hr eq_refl (or_introl Hts)))))).
Defined.

(** C9.  The read side never writes the lock word.  Let a schedule pick
    only threads that execute [kroki_seqlock_read_lock], the caller's read
    block or [kroki_seqlock_read_unlock], for any number of steps and so
    for any number of retries, in any pool and state.  Then the lock word
    at the end is the lock word at the start, the events added to the trace
    are acquire loads, signal fences and executions of the block, and the
    list of values written to the lock word is unchanged. *)
Theorem read_side_never_stores
    (tgt : target) (s : system) (sched : list choice) :
  Forall (fun ch => exists p, threads s !! fst ch = Some p /\
                              read_side p = true) sched ->
  let s' := run tgt sched s in
  plock s' = plock s /\
  (exists new,
      trace s' = trace s ++ new /\
      Forall (fun te => read_event (snd te) = true) new) /\
  writes (trace s') = writes (trace s).
Proof.
  intros H s'. destruct (read_run tgt sched s H) as (Hl & new & Htr & Hnew).
  fold s' in Hl, Htr. split; [exact Hl |]. split; [eauto |].
  rewrite Htr. unfold writes at 1. rewrite omap_app.
  fold (writes (trace s)) (writes new).
  rewrite (read_events_write_nothing new Hnew). apply app_nil_r.
Qed.

(** A reader that starts while a writer holds the lock word at 5 and keeps
    retrying: after eleven steps the lock word is still 5. *)
Lemma read_side_never_stores_witness :
  Forall (fun ch => exists p,
            threads (System 5 [WU_store 4; RL_load] []) !! fst ch = Some p /\
            read_side p = true) (repeat (1%nat, false) 11) /\
  plock (run X86 (repeat (1%nat, false) 11)
           (System 5 [WU_store 4; RL_load] [])) = 5 /\
  writes (trace (run X86 (repeat (1%nat, false) 11)
                   (System 5 [WU_store 4; RL_load] []))) = [].
Proof.
  assert (H : Forall (fun ch => exists p,
            threads (System 5 [WU_store 4; RL_load] []) !! fst ch = Some p /\
            read_side p = true) (repeat (1%nat, false) 11)).
  { simpl. repeat constructor; exists RL_load; split; reflexivity. }
  split; [exact H |].
  destruct (read_side_never_stores X86 _ _ H) as (H1 & _ & H3).
  split; [exact H1 | exact H3].
Defined.



(** * Further properties *)

(** ** Helpers *)

Lemma and_not_1_even_any x : Z.even (and_not_1 x) = true.
Proof.
  unfold and_not_1. rewrite <- Z.negb_odd, <- Z.bit0_odd, Z.land_spec.
  rewrite andb_false_r. reflexivity.
Qed.

Lemma read_baseline_even v : Z.even (read_baseline v) = true.
Proof. apply and_not_1_even_any. Qed.

Lemma odd_not_even c : Z.odd c = true -> Z.even c = false.
Proof. intros H. rewrite <- Z.negb_odd, H. reflexivity. Qed.

Lemma odd_neq_even c old :
  Z.odd c = true -> Z.even old = true -> (c =? old) = false.
Proof.
  intros Ho He. apply Z.eqb_neq. intros ->.
  apply (even_not_odd old); assumption.
Qed.

(** ** While the lock word is odd *)

Lemma reader_even_step tgt sp p c :
  Z.odd c = true -> reader_even p ->
  reader_even (fst (fst (thread_step tgt sp p c))).
Proof.
  intros Ho Hp. unfold thread_step.
  destruct p; simpl in *; try contradiction; auto using read_baseline_even.
  rewrite Z.eqb_sym, (odd_neq_even c old Ho Hp). simpl.
  apply read_baseline_even.
Qed.

Lemma spinning_step tgt sp p c :
  Z.odd c = true -> spinning p ->
  spinning (fst (fst (thread_step tgt sp p c))).
Proof.
  intros Ho Hp. unfold thread_step.
  destruct p; simpl in *; try contradiction; auto using spin_expected_even.
  rewrite (odd_neq_even c old Ho Hp). simpl. exact I.
Qed.

Lemma reader_even_run tgt obs : forall p,
  Forall (fun o => Z.odd (snd o) = true) obs -> reader_even p ->
  reader_even (fst (thread_run tgt obs p)).
Proof.
  induction obs as [| [sp c] obs IH]; intros p Hobs Hp; [exact Hp |].
  inversion Hobs; subst. rewrite thread_run_cons. cbn [fst].
  apply IH; [assumption |]. apply reader_even_step; assumption.
Qed.

Lemma spinning_run tgt obs : forall p,
  Forall (fun o => Z.odd (snd o) = true) obs -> spinning p ->
  spinning (fst (thread_run tgt obs p)).
Proof.
  induction obs as [| [sp c] obs IH]; intros p Hobs Hp; [exact Hp |].
  inversion Hobs; subst. rewrite thread_run_cons. cbn [fst].
  apply IH; [assumption |]. apply spinning_step; assumption.
Qed.

Lemma spinning_step_silent tgt sp p c :
  Z.odd c = true -> spinning p ->
  omap written (snd (thread_step tgt sp p c)) = [].
Proof.
  intros Ho Hp. unfold thread_step.
  destruct p; simpl in *; try contradiction; auto.
  - rewrite (odd_neq_even c old Ho Hp). reflexivity.
  - destruct tgt; reflexivity.
Qed.

Lemma spinning_run_silent tgt obs : forall p,
  Forall (fun o => Z.odd (snd o) = true) obs -> spinning p ->
  omap written (snd (thread_run tgt obs p)) = [].
Proof.
  induction obs as [| [sp c] obs IH]; intros p Hobs Hp; [reflexivity |].
  inversion Hobs; subst. rewrite thread_run_cons. cbn [snd].
  rewrite omap_app, spinning_step_silent by assumption.
  apply IH; [assumption |]. apply spinning_step; assumption.
Qed.

(** X4.  A reader cannot leave its loop while the lock word is odd.  Run a
    reader from [kroki_seqlock_read_lock] for any number of steps; if the
    lock word is odd at each of them (a writer is inside its critical
    section and stays there), the reader is still in the loop at the end. *)
Theorem reader_waits_while_lock_is_odd
    (tgt : target) (obs : list (bool * kroki_seqlock_t)) :
  Forall (fun o => Z.odd (snd o) = true) obs ->
  fst (thread_run tgt obs RL_load) <> Done /\
  reader_even (fst (thread_run tgt obs RL_load)).
Proof.
  intros Hobs. pose proof (reader_even_run tgt obs RL_load Hobs I) as H.
  split; [| exact H]. intros E. rewrite E in H. exact H.
Qed.

Lemma reader_waits_while_lock_is_odd_witness :
  Forall (fun o => Z.odd (snd o) = true) (repeat (false, 5) 9) /\
  fst (thread_run X86 (repeat (false, 5) 9) RL_load) <> Done.
Proof.
  assert (H : Forall (fun o => Z.odd (snd o) = true) (repeat (false, 5) 9))
    by (repeat constructor).
  split; [exact H |].
  exact (proj1 (reader_waits_while_lock_is_odd X86 _ H)).
Defined.

(** X5.  A spinning writer cannot enter while the lock word is odd.  Run a
    writer from [kroki_seqlock_write_lock_spin] for any number of steps,
    with any spurious failures; if the lock word is odd at each of them, the
    writer is still before its critical section at the end and none of its
    events wrote to the lock word. *)
Theorem spinning_writer_waits_while_lock_is_odd
    (tgt : target) (obs : list (bool * kroki_seqlock_t)) :
  Forall (fun o => Z.odd (snd o) = true) obs ->
  in_critical_section (fst (thread_run tgt obs WS_load)) = false /\
  fst (thread_run tgt obs WS_load) <> Done /\
  omap written (snd (thread_run tgt obs WS_load)) = [].
Proof.
  intros Hobs. pose proof (spinning_run tgt obs WS_load Hobs I) as H.
  split; [| split].
  - destruct (fst (thread_run tgt obs WS_load)); try contradiction;
      reflexivity.
  - intros E. rewrite E in H. exact H.
  - apply spinning_run_silent; [assumption | exact I].
Qed.

Lemma spinning_writer_waits_while_lock_is_odd_witness :
  Forall (fun o => Z.odd (snd o) = true)
    [(false, 1); (true, 1); (false, 3); (false, 3); (true, 5)] /\
  in_critical_section
    (fst (thread_run X86
            [(false, 1); (true, 1); (false, 3); (false, 3); (true, 5)]
            WS_load)) = false.
Proof.
  assert (H : Forall (fun o => Z.odd (snd o) = true)
                [(false, 1); (true, 1); (false, 3); (false, 3); (true, 5)])
    by (repeat constructor).
  split; [exact H |].
  exact (proj1 (spinning_writer_waits_while_lock_is_odd X86 _ H)).
Defined.

(** ** Once the lock word is stable *)

Lemma reader_completes tgt p c
    s1 s2 s3 s4 s5 s6 s7 s8 (rest : list (bool * kroki_seqlock_t)) :
  read_side p = true -> read_baseline c = c ->
  fst (thread_run tgt
         ((s1, c) :: (s2, c) :: (s3, c) :: (s4, c) :: (s5, c) :: (s6, c) ::
          (s7, c) :: (s8, c) :: rest) p) = Done.
Proof.
  intros Hp Hb.
  destruct p; try discriminate Hp; try destruct (old =? c) eqn:E;
    repeat (rewrite thread_run_cons;
            cbn [thread_step kroki_seqlock_write_lock
                 kroki_seqlock_write_lock_spin kroki_seqlock_write_unlock
                 kroki_seqlock_read_lock kroki_seqlock_read_unlock
                 caller_block fst snd];
            rewrite ?Hb, ?E, ?Z.eqb_refl; cbn [negb fst snd]);
    rewrite ?thread_run_Done; reflexivity.
Qed.

(** X3.  Once the lock word is stable and even, every reader completes
    after at most one retry.  Take a reader at any point of
    [kroki_seqlock_read_lock] ... [kroki_seqlock_read_unlock], whatever
    baseline it has recorded before; if the lock word holds the same even
    value at each of its next eight steps, it has left the loop. *)
Theorem reader_completes_once_lock_is_stable
    (tgt : target) (p : pc) (c : kroki_seqlock_t)
    (obs : list (bool * kroki_seqlock_t)) :
  read_side p = true -> in_range c -> Z.even c = true ->
  Forall (fun o => snd o = c) obs -> (8 <= length obs)%nat ->
  fst (thread_run tgt obs p) = Done.
Proof.
  intros Hp Hr He Hobs Hlen.
  do 8 (destruct obs as [| [? ?] obs]; [simpl in Hlen; lia |]).
  repeat match goal with
         | H : Forall _ (_ :: _) |- _ => inversion H; clear H; subst
         end.
  cbn [snd] in *. subst.
  apply reader_completes; [exact Hp |].
  unfold read_baseline. apply and_not_1_fix; assumption.
Qed.

Lemma reader_completes_once_lock_is_stable_witness :
  read_side (RU_load_first 4) = true /\ in_range 8 /\ Z.even 8 = true /\
  fst (thread_run X86 (repeat (false, 8) 8) (RU_load_first 4)) = Done.
Proof.
  assert (Hr : in_range 8) by (range_unfold; lia).
  split; [reflexivity |]. split; [exact Hr |]. split; [reflexivity |].
  refine (reader_completes_once_lock_is_stable X86 (RU_load_first 4) 8
            (repeat (false, 8) 8) eq_refl Hr eq_refl _ _).
  - repeat constructor.
  - simpl. lia.
Defined.

(** ** What the trace of a pool keeps *)

Lemma snoc_split {A} (tr pre post : list A) (x y : A) :
  tr ++ [x] = pre ++ y :: post ->
  (tr = pre /\ x = y /\ post = []) \/
  (exists post', post = post' ++ [x] /\ tr = pre ++ y :: post').
Proof.
  destruct post as [| z post _] using rev_ind; intros H.
  - left. apply app_inj_tail in H. destruct H; auto.
  - right. exists post.
    change (pre ++ y :: post ++ [z]) with (pre ++ (y :: post) ++ [z]) in H.
    rewrite app_assoc in H. apply app_inj_tail in H.
    destruct H as [-> ->]. auto.
Qed.

Lemma thread_step_events tgt sp p c :
  snd (thread_step tgt sp p c) = [] \/
  exists e, snd (thread_step tgt sp p c) = [e].
Proof.
  unfold thread_step. destruct p; simpl; eauto.
  - destruct ((c =? old) && negb sp); simpl; eauto.
  - destruct tgt; simpl; eauto.
  - destruct (negb (old =? c)); simpl; eauto.
Qed.

Lemma thread_step_written tgt sp p c e :
  snd (thread_step tgt sp p c) = [e] ->
  match written e with
  | Some v => snd (fst (thread_step tgt sp p c)) = v
  | None => snd (fst (thread_step tgt sp p c)) = c
  end.
Proof.
  unfold thread_step. destruct p; simpl; try discriminate;
    try (intros [= <-]; reflexivity).
  - destruct ((c =? old) && negb sp); simpl; intros [= <-]; reflexivity.
  - destruct tgt; simpl; [intros [= <-]; reflexivity | discriminate].
  - destruct (negb (old =? c)); simpl; intros [= <-]; reflexivity.
Qed.

Lemma thread_step_silent tgt sp p c :
  snd (thread_step tgt sp p c) = [] ->
  snd (fst (thread_step tgt sp p c)) = c.
Proof.
  unfold thread_step. destruct p; simpl; try discriminate; auto.
  - destruct ((c =? old) && negb sp); discriminate.
  - destruct (negb (old =? c)); discriminate.
Qed.

Lemma thread_step_loaded tgt sp p c v mo :
  snd (thread_step tgt sp p c) = [atomic_load_n v mo] -> v = c.
Proof.
  unfold thread_step. destruct p; simpl; try discriminate;
    try (intros [= <- _]; reflexivity).
  - destruct ((c =? old) && negb sp); discriminate.
  - destruct tgt; discriminate.
  - destruct (negb (old =? c)); simpl; intros [= <- _]; reflexivity.
Qed.

Lemma lock_after_snoc c0 tr i e :
  lock_after c0 (tr ++ [(i, e)]) =
  match written e with
  | Some v => v
  | None => lock_after c0 tr
  end.
Proof.
  unfold lock_after.
  change [(i, e)] with (map (pair i) [e]). rewrite writes_app.
  cbn [omap list_omap]. destruct (written e) as [v |].
  - rewrite last_snoc. reflexivity.
  - rewrite app_nil_r. reflexivity.
Qed.

Lemma faithful_step tgt c0 ch s :
  faithful c0 s -> faithful c0 (step tgt ch s).
Proof.
  intros [Hl Hloads]. destruct ch as [i sp].
  destruct (threads s !! i) as [p |] eqn:Hi;
    [| rewrite step_none by exact Hi; constructor; assumption].
  rewrite (step_some _ _ _ _ _ Hi).
  pose proof (thread_step_events tgt sp p (plock s)) as Hev.
  pose proof (thread_step_silent tgt sp p (plock s)) as Hsil.
  pose proof (thread_step_written tgt sp p (plock s)) as Hwr.
  pose proof (thread_step_loaded tgt sp p (plock s)) as Hld.
  destruct (thread_step tgt sp p (plock s)) as [[p' c'] evs].
  cbn [fst snd] in *. destruct Hev as [-> | [e ->]].
  - cbn [map]. rewrite app_nil_r.
    constructor; cbn [plock trace]; [| exact Hloads].
    rewrite Hsil by reflexivity. exact Hl.
  - specialize (Hwr e eq_refl).
    constructor; cbn [plock trace map].
    + rewrite lock_after_snoc. destruct (written e); congruence.
    + intros pre j v mo post Hsplit. apply snoc_split in Hsplit.
      destruct Hsplit as [(<- & Heq & _) | (post' & _ & Htr)].
      * injection Heq as <- ->. rewrite (Hld v mo eq_refl). exact Hl.
      * eapply Hloads; eauto.
Qed.

Lemma faithful_run tgt c0 sched : forall s,
  faithful c0 s -> faithful c0 (run tgt sched s).
Proof.
  induction sched as [| ch sched IH]; intros s H; simpl;
    [exact H | apply IH, faithful_step, H].
Qed.

Lemma faithful_init c0 ts : faithful c0 (System c0 ts []).
Proof.
  constructor; simpl; [reflexivity |].
  intros pre i v mo post H. destruct pre; discriminate.
Qed.

(** ** The iterations of a reader in the trace *)

Lemma events_of_other i j tr evs :
  j <> i -> events_of i (tr ++ map (pair j) evs) = events_of i tr.
Proof.
  intros Hne. rewrite events_of_app, decide_False by exact Hne.
  apply app_nil_r.
Qed.

Lemma events_of_self i tr e :
  events_of i (tr ++ [(i, e)]) = events_of i tr ++ [e].
Proof.
  change [(i, e)] with (map (pair i) [e]).
  rewrite events_of_app, decide_True by reflexivity. reflexivity.
Qed.

Lemma read_window_other i j tr old since evs :
  j <> i -> read_window i tr old since ->
  read_window i (tr ++ map (pair j) evs) old since.
Proof.
  intros Hne (pre & v & post & -> & Hold & Hev).
  exists pre, v, (post ++ map (pair j) evs).
  rewrite <- app_assoc, <- app_comm_cons. split; [reflexivity |].
  split; [exact Hold |]. rewrite events_of_other by exact Hne. exact Hev.
Qed.

Lemma read_window_self i tr old since e :
  read_window i tr old since ->
  read_window i (tr ++ [(i, e)]) old (since ++ [e]).
Proof.
  intros (pre & v & post & -> & Hold & Hev).
  exists pre, v, (post ++ [(i, e)]).
  rewrite <- app_assoc, <- app_comm_cons. split; [reflexivity |].
  split; [exact Hold |]. rewrite events_of_self, Hev. reflexivity.
Qed.

Lemma read_window_open i tr v :
  read_window i (tr ++ [(i, atomic_load_n v ATOMIC_ACQUIRE)])
    (read_baseline v) [].
Proof. exists tr, v, []. auto. Qed.

Lemma reader_at_other i j tr p evs :
  j <> i -> reader_at i tr p -> reader_at i (tr ++ map (pair j) evs) p.
Proof.
  intros Hne. destruct p; simpl; try contradiction;
    auto using read_window_other.
  - intros H. rewrite events_of_other by exact Hne. exact H.
  - intros [c2 H]. exists c2. apply read_window_other; assumption.
  - intros (pre & v & mid & c2 & post & -> & Hmid & Hpost).
    exists pre, v, mid, c2, (post ++ map (pair j) evs).
    split; [| split; [exact Hmid |]].
    + rewrite <- !app_assoc, <- !app_comm_cons, <- app_assoc.
      reflexivity.
    + rewrite events_of_other by exact Hne. exact Hpost.
Qed.

Lemma reader_at_self tgt i tr sp p c :
  reader_at i tr p ->
  reader_at i (tr ++ map (pair i) (snd (thread_step tgt sp p c)))
    (fst (fst (thread_step tgt sp p c))).
Proof.
  unfold thread_step. destruct p; simpl; try contradiction.
  - intros _. apply read_window_open.
  - intros H. apply (read_window_self _ _ _ _ user_block) in H. exact H.
  - intros H.
    apply (read_window_self _ _ _ _ (atomic_signal_fence ATOMIC_ACQ_REL))
      in H. exact H.
  - intros H. exists c.
    apply (read_window_self _ _ _ _ (atomic_load_n c ATOMIC_ACQUIRE)) in H.
    exact H.
  - intros [c2 H]. destruct (old =? c) eqn:E; simpl.
    + apply Z.eqb_eq in E. subst c.
      destruct H as (pre & v & post & -> & Hold & Hev).
      exists pre, v, post, c2, []. rewrite Hold, <- app_assoc.
      auto.
    + apply read_window_open.
  - intros H. rewrite app_nil_r. exact H.
Qed.

Lemma reader_at_step tgt i ch s p :
  threads s !! i = Some p -> reader_at i (trace s) p ->
  exists p', threads (step tgt ch s) !! i = Some p' /\
             reader_at i (trace (step tgt ch s)) p'.
Proof.
  intros Hi Hp. destruct ch as [j sp].
  destruct (threads s !! j) as [q |] eqn:Hj;
    [| rewrite step_none by exact Hj; eauto].
  rewrite (step_some _ _ _ _ _ Hj).
  destruct (decide (j = i)) as [-> | Hne].
  - assert (q = p) as -> by congruence.
    pose proof (reader_at_self tgt i (trace s) sp p (plock s) Hp) as H.
    pose proof (lookup_lt_Some _ _ _ Hi) as Hlen.
    destruct (thread_step tgt sp p (plock s)) as [[p' c'] evs].
    exists p'. cbn [threads trace fst snd] in *.
    rewrite list_lookup_insert_eq by exact Hlen. auto.
  - destruct (thread_step tgt sp q (plock s)) as [[q' c'] evs].
    exists p. cbn [threads trace].
    rewrite list_lookup_insert_ne by exact Hne.
    auto using reader_at_other.
Qed.

Lemma reader_at_run tgt i sched : forall s p,
  threads s !! i = Some p -> reader_at i (trace s) p ->
  exists p', threads (run tgt sched s) !! i = Some p' /\
             reader_at i (trace (run tgt sched s)) p'.
Proof.
  induction sched as [| ch sched IH]; intros s p Hi Hp; [simpl; eauto |].
  destruct (reader_at_step tgt i ch s p Hi Hp) as (p' & Hi' & Hp').
  simpl. eauto.
Qed.

(** ** Clean reads in a spinning pool *)

Lemma writing_side_step tgt sp p c :
  writing_side p = true ->
  writing_side (fst (fst (thread_step tgt sp p c))) = true.
Proof.
  unfold thread_step. destruct p; simpl; try discriminate; auto.
  destruct ((c =? old) && negb sp); reflexivity.
Qed.

Lemma thread_step_block tgt sp p c :
  snd (thread_step tgt sp p c) = [user_block] ->
  (exists old, p = W_block old) \/ (exists old, p = R_block old).
Proof.
  unfold thread_step. destruct p; simpl; try discriminate; eauto.
  - destruct ((c =? old) && negb sp); discriminate.
  - destruct tgt; discriminate.
  - destruct (negb (old =? c)); discriminate.
Qed.

Lemma spin_trace_step tgt c0 ts ch s :
  spin_trace c0 ts s -> spin_trace c0 ts (step tgt ch s).
Proof.
  intros [Hinv Hf Hkind Hblocks].
  constructor; [apply spin_inv_step, Hinv | apply faithful_step, Hf | |];
    destruct ch as [i sp];
    (destruct (threads s !! i) as [p |] eqn:Hi;
     [| rewrite step_none by exact Hi; assumption]);
    rewrite (step_some _ _ _ _ _ Hi).
  - pose proof (writing_side_step tgt sp p (plock s)) as Hw.
    destruct (thread_step tgt sp p (plock s)) as [[p' c'] evs].
    cbn [threads fst] in *. intros j q Hj Hq.
    apply lookup_insert_inv in Hq. destruct Hq as [[-> ->] | [_ Hq]]; eauto.
  - pose proof (thread_step_events tgt sp p (plock s)) as Hev.
    pose proof (thread_step_block tgt sp p (plock s)) as Hb.
    destruct (thread_step tgt sp p (plock s)) as [[p' c'] evs].
    cbn [trace fst snd] in *. destruct Hev as [-> | [e ->]].
    + cbn [map]. rewrite app_nil_r. exact Hblocks.
    + intros pre j post Hsplit Hj. cbn [map] in Hsplit.
      apply snoc_split in Hsplit.
      destruct Hsplit as [(<- & Heq & _) | (post' & _ & Htr)];
        [| eapply Hblocks; eauto].
      injection Heq as <- ->.
      rewrite <- (f_lock _ _ Hf).
      destruct (Hb eq_refl) as [[old ->] | [old ->]].
      * pose proof (inv_threads _ _ Hinv _ _ Hi) as Hok.
        eapply spin_ok_inside_odd; [| exact Hok]. reflexivity.
      * specialize (Hkind _ _ Hj Hi). discriminate.
Qed.

Lemma spin_trace_run tgt c0 ts sched : forall s,
  spin_trace c0 ts s -> spin_trace c0 ts (run tgt sched s).
Proof.
  induction sched as [| ch sched IH]; intros s H; simpl;
    [exact H | apply IH, spin_trace_step, H].
Qed.

Lemma spin_trace_init c0 ts :
  in_range c0 -> Z.even c0 = true -> spinning_pool ts ->
  spin_trace c0 ts (System c0 ts []).
Proof.
  intros Hr He Hts. constructor.
  - apply spin_inv_init; assumption.
  - apply faithful_init.
  - simpl. intros j p Hj Hp. assert (p = WS_load) as -> by congruence.
    reflexivity.
  - intros pre j post H. destruct pre; discriminate.
Qed.

Lemma count_up_prefix c0 n l1 l2 :
  count_up c0 n = l1 ++ l2 -> l1 = count_up c0 (length l1).
Proof.
  intros H. assert (Hlen : (length l1 <= n)%nat).
  { apply (f_equal length) in H.
    unfold count_up in H. rewrite length_map, length_seq, length_app in H.
    lia. }
  rewrite <- (take_app_length l1 l2) at 1. rewrite <- H. unfold count_up.
  rewrite <- fmap_take, take_seq, Nat.min_l by exact Hlen. reflexivity.
Qed.

Lemma last_count_up c0 n :
  in_range c0 ->
  default c0 (last (count_up c0 n)) = wrap (c0 + Z.of_nat n).
Proof.
  intros Hr. destruct n as [| n].
  - simpl. rewrite Z.add_0_r. symmetry. apply wrap_small, Hr.
  - rewrite count_up_S, last_snoc. reflexivity.
Qed.

Lemma writes_cons_load i v mo tr :
  writes ((i, atomic_load_n v mo) :: tr) = writes tr.
Proof. reflexivity. Qed.

Lemma writes_cons_block i tr : writes ((i, user_block) :: tr) = writes tr.
Proof. reflexivity. Qed.

Lemma writes_concat tr1 tr2 : writes (tr1 ++ tr2) = writes tr1 ++ writes tr2.
Proof. apply omap_app. Qed.

Lemma window_arith c0 n1 m :
  0 <= Z.of_nat n1 + Z.of_nat m < UINT_MODULUS - 1 ->
  read_baseline (wrap (c0 + Z.of_nat n1)) =
    wrap (c0 + Z.of_nat (n1 + m)) ->
  m = 0%nat /\ Z.even (wrap (c0 + Z.of_nat n1)) = true.
Proof.
  intros Hb H. unfold read_baseline in H.
  rewrite and_not_1_sub in H by apply wrap_in_range.
  assert (m = 0%nat /\ wrap (c0 + Z.of_nat n1) mod 2 = 0)
    as [-> Hm]; [| split; [reflexivity | apply mod_even_true, Hm]].
  range_unfold. zlia.
Qed.

Lemma read_exit_values c0 i tr pre v mid :
  loads_faithful c0 tr -> read_exit i tr pre v mid ->
  v = default c0 (last (writes pre)) /\
  read_baseline v = default c0 (last (writes pre ++ writes mid)) /\
  exists post, writes tr = writes pre ++ writes mid ++ writes post.
Proof.
  intros Hf (c2 & post & Htr & _ & _). split; [| split].
  - eapply Hf. exact Htr.
  - rewrite app_comm_cons, app_assoc in Htr.
    rewrite (Hf _ _ _ _ _ Htr). unfold lock_after.
    rewrite writes_concat, writes_cons_load. reflexivity.
  - exists post. rewrite Htr.
    rewrite writes_concat, writes_cons_load, writes_concat, writes_cons_load.
    reflexivity.
Qed.

Lemma no_block_in_quiet_window c0 (P : nat -> Prop) tr pre i v mid :
  (forall pre' j post', tr = pre' ++ (j, user_block) :: post' -> P j ->
                        Z.odd (lock_after c0 pre') = true) ->
  read_exit i tr pre v mid ->
  default c0 (last (writes pre)) = v -> Z.even v = true ->
  writes mid = [] ->
  forall j, P j -> ~ In (j, user_block) mid.
Proof.
  intros Hblocks (c2 & post & Htr & _ & _) Hv He Hmid j Pj Hin.
  apply in_split in Hin. destruct Hin as (m1 & m2 & ->).
  rewrite writes_concat, writes_cons_block in Hmid.
  apply app_eq_nil in Hmid. destruct Hmid as [Hm1 _].
  assert (Hsplit : tr = (pre ++ (i, atomic_load_n v ATOMIC_ACQUIRE) :: m1)
                        ++ (j, user_block) :: m2 ++
                        (i, atomic_load_n (read_baseline v) ATOMIC_ACQUIRE)
                        :: post).
  { rewrite Htr. repeat (rewrite <- app_assoc || rewrite <- app_comm_cons).
    reflexivity. }
  pose proof (Hblocks _ _ _ Hsplit Pj) as Ho.
  unfold lock_after in Ho.
  rewrite writes_concat, writes_cons_load, Hm1, app_nil_r, Hv in Ho.
  apply (even_not_odd v He Ho).
Qed.

(** X1.  A completed read in a spinning pool is clean.  Start spinning
    writers and readers on an even lock word and run them under any
    schedule with fewer than [2^32 - 1] writes to the lock word.  When a
    reader has left its loop, the trace holds its last iteration between
    two of its acquire loads: the first returned an even value [v], the lock
    word of that moment, the second returned [v] again, and between the two
    nothing was written to the lock word and no writer executed its
    block. *)
Theorem completed_read_is_clean_in_spinning_pool
    (tgt : target) (c0 : kroki_seqlock_t) (ts : list pc) (i : nat)
    (sched : list choice) :
  in_range c0 -> Z.even c0 = true -> spinning_pool ts ->
  ts !! i = Some RL_load ->
  let s := run tgt sched (System c0 ts []) in
  threads s !! i = Some Done ->
  Z.of_nat (length (writes (trace s))) < UINT_MODULUS - 1 ->
  exists pre v mid,
    read_exit i (trace s) pre v mid /\
    v = lock_after c0 pre /\
    Z.even v = true /\ read_baseline v = v /\
    writes mid = [] /\
    (forall j, ts !! j = Some WS_load -> ~ In (j, user_block) mid).
Proof.
  intros Hr He Hts Hi s Hdone Hbound.
  pose proof (spin_trace_run tgt c0 ts sched _
                (spin_trace_init c0 ts Hr He Hts)) as [Hinv Hf Hkind Hblocks].
  fold s in Hinv, Hf, Hkind, Hblocks.
  destruct (reader_at_run tgt i sched (System c0 ts []) RL_load Hi eq_refl)
    as (p' & Hp' & Hat).
  fold s in Hp', Hat. rewrite Hdone in Hp'. injection Hp' as <-.
  destruct Hat as (pre & v & mid & Hexit).
  destruct (read_exit_values c0 i _ pre v mid (f_loads _ _ Hf) Hexit)
    as (Hv & Hb & post & Hw).
  pose proof (inv_writes _ _ Hinv) as Hcount. rewrite Hw in Hcount at 1.
  symmetry in Hcount.
  pose proof (count_up_prefix _ _ _ _ Hcount) as Hpre.
  rewrite app_assoc in Hcount.
  pose proof (count_up_prefix _ _ _ _ Hcount) as Hmid.
  rewrite Hpre in Hv. rewrite Hmid in Hb.
  rewrite last_count_up in Hv, Hb by exact Hr.
  rewrite length_app in Hb. rewrite Hv in Hb.
  assert (Hlen : Z.of_nat (length (writes pre)) +
                 Z.of_nat (length (writes mid)) <
                 UINT_MODULUS - 1).
  { rewrite Hw, !length_app in Hbound. lia. }
  assert (Hpos : 0 <= Z.of_nat (length (writes pre)) +
                      Z.of_nat (length (writes mid))) by lia.
  destruct (window_arith c0 _ _ (conj Hpos Hlen) Hb) as [Hm0 Hev].
  rewrite <- Hv in Hev.
  assert (Hnil : writes mid = []) by (apply nil_length_inv, Hm0).
  exists pre, v, mid. split; [exact Hexit |].
  split; [rewrite Hv, <- last_count_up, <- Hpre by exact Hr; reflexivity |].
  split; [exact Hev |]. split.
  - unfold read_baseline. apply and_not_1_fix; [| exact Hev].
    rewrite Hv. apply wrap_in_range.
  - split; [exact Hnil |].
    apply (no_block_in_quiet_window c0 (fun j => ts !! j = Some WS_load)
             (trace s) pre i v mid Hblocks Hexit); try assumption.
    rewrite Hv, <- last_count_up, <- Hpre by exact Hr. reflexivity.
Qed.

(** ** Clean reads beside a single writer *)

Lemma single_trace_writer_step tgt C w k sp s :
  single_trace C w k s -> single_trace C w (S k) (step tgt (w, sp) s).
Proof.
  intros [Hinv Hf Hb].
  constructor;
    [apply single_inv_writer_step, Hinv | apply faithful_step, Hf |].
  pose proof (sw_pc _ _ _ _ Hinv) as Hp.
  pose proof (sw_lock _ _ _ _ Hinv) as Hl.
  pose proof (f_lock _ _ Hf) as Hlast.
  rewrite (step_some _ _ _ _ _ Hp). rewrite Hl.
  do 6 (try destruct k as [| k]);
    cbn [write_pair_pc write_pair_lock thread_step kroki_seqlock_write_lock
         kroki_seqlock_write_lock_spin kroki_seqlock_write_unlock
         kroki_seqlock_read_lock kroki_seqlock_read_unlock caller_block
         trace map] in *;
    rewrite ?app_nil_r; try exact Hb;
    intros pre post Hsplit; apply snoc_split in Hsplit;
    destruct Hsplit as [(<- & Heq & _) | (post' & _ & Htr)];
    try discriminate; try (eapply Hb; eauto; fail).
  congruence.
Qed.

Lemma single_trace_reader_step tgt C w k i sp s :
  i <> w -> single_trace C w k s ->
  single_trace C w k (step tgt (i, sp) s).
Proof.
  intros Hne [Hinv Hf Hb].
  constructor;
    [apply single_inv_reader_step; assumption | apply faithful_step, Hf |].
  destruct (threads s !! i) as [p |] eqn:Hi;
    [| rewrite step_none by exact Hi; assumption].
  rewrite (step_some _ _ _ _ _ Hi).
  pose proof (thread_step_events tgt sp p (plock s)) as Hev.
  destruct (thread_step tgt sp p (plock s)) as [[p' c'] evs].
  cbn [trace snd] in *. destruct Hev as [-> | [e ->]].
  - cbn [map]. rewrite app_nil_r. exact Hb.
  - intros pre post Hsplit. cbn [map] in Hsplit. apply snoc_split in Hsplit.
    destruct Hsplit as [(<- & Heq & _) | (post' & _ & Htr)];
      [congruence | eapply Hb; eauto].
Qed.

Lemma single_trace_run tgt C w sched : forall k s,
  single_trace C w k s ->
  single_trace C w (k + scheduled w sched) (run tgt sched s).
Proof.
  induction sched as [| [i sp] sched IH]; intros k s H; simpl run.
  - unfold scheduled. simpl. rewrite Nat.add_0_r. exact H.
  - rewrite scheduled_cons. simpl fst.
    destruct (decide (i = w)) as [-> | Hne].
    + replace (k + (1 + scheduled w sched))%nat
        with (S k + scheduled w sched)%nat by lia.
      apply IH, single_trace_writer_step, H.
    + apply IH, single_trace_reader_step; assumption.
Qed.

Lemma single_trace_init C w ts :
  single_writer_pool w ts -> single_trace C w 0 (System C ts []).
Proof.
  intros Hts. constructor.
  - apply single_inv_init, Hts.
  - apply faithful_init.
  - intros pre post H. destruct pre; discriminate.
Qed.

Lemma write_pair_writes C k :
  exists k', omap written (take k (write_pair_events C)) =
             take k' [uint_add C 1; uint_add C 1; uint_add C 2].
Proof.
  do 6 (try destruct k as [| k]).
  - exists 0%nat. reflexivity.
  - exists 0%nat. reflexivity.
  - exists 1%nat. reflexivity.
  - exists 2%nat. reflexivity.
  - exists 2%nat. reflexivity.
  - exists 2%nat. reflexivity.
  - exists 3%nat. unfold write_pair_events. cbn. rewrite take_nil.
    reflexivity.
Qed.

Lemma single_window_arith C wp wm wpost k' :
  in_range C -> Z.even C = true ->
  wp ++ wm ++ wpost = take k' [uint_add C 1; uint_add C 1; uint_add C 2] ->
  read_baseline (default C (last wp)) = default C (last (wp ++ wm)) ->
  wm = [] /\ (default C (last wp) = C \/ default C (last wp) = uint_add C 2).
Proof.
  intros Hr He Hw Hb.
  assert (RC : read_baseline C = C)
    by (apply and_not_1_fix; assumption).
  assert (Ra : read_baseline (uint_add C 1) = C).
  { unfold read_baseline. rewrite and_not_1_sub by apply uint_add_in_range.
    rewrite even_uint_add_1 by assumption.
    apply even_true_mod in He. zlia. }
  assert (Na : C <> uint_add C 1)
    by (rewrite even_uint_add_1 by assumption; lia).
  assert (Nb : C <> uint_add C 2) by (range_unfold; zlia).
  revert Hw Hb RC Ra Na Nb.
  generalize (uint_add C 1) (uint_add C 2). intros a b Hw Hb RC Ra Na Nb.
  do 4 (try destruct k' as [| k']); cbn [take] in Hw;
    destruct wp as [| x1 [| x2 [| x3 [| x4 wp]]]];
    destruct wm as [| y1 [| y2 [| y3 [| y4 wm]]]];
    cbn [app] in Hw; try discriminate Hw;
    repeat match goal with
           | H : _ :: _ = _ :: _ |- _ => injection H as ? H
           | H : [] = _ :: _ |- _ => discriminate H
           | H : _ :: _ = [] |- _ => discriminate H
           end;
    repeat match goal with
           | H : ?x = a |- _ => is_var x; subst x
           | H : ?x = b |- _ => is_var x; subst x
           end;
    cbn in Hb |- *; unfold id in *;
    first [ exfalso; congruence | split; [reflexivity | auto] ].
Qed.

(** X2.  A completed read beside a single writer is clean.  Start one
    writer that uses [kroki_seqlock_write_lock] and any readers on an even
    lock word [C] and run them under any schedule.  When a reader has left
    its loop, the trace holds its last iteration between two of its acquire
    loads that returned the same value [v], the lock word of that moment;
    [v] is [C] (the writer has not stored yet) or [C + 2] (it has
    unlocked), and between the two loads nothing was written to the lock
    word and the writer did not execute its block. *)
Theorem completed_read_is_clean_beside_single_writer
    (tgt : target) (C : kroki_seqlock_t) (w : nat) (ts : list pc) (i : nat)
    (sched : list choice) :
  in_range C -> Z.even C = true -> single_writer_pool w ts ->
  ts !! i = Some RL_load ->
  let s := run tgt sched (System C ts []) in
  threads s !! i = Some Done ->
  exists pre v mid,
    read_exit i (trace s) pre v mid /\
    v = lock_after C pre /\
    (v = C \/ v = uint_add C 2) /\ read_baseline v = v /\
    writes mid = [] /\
    ~ In (w, user_block) mid.
Proof.
  intros Hr He Hts Hi s Hdone.
  pose proof (single_trace_run tgt C w sched 0 _ (single_trace_init C w ts Hts))
    as [Hinv Hf Hblock].
  fold s in Hinv, Hf, Hblock.
  destruct (reader_at_run tgt i sched (System C ts []) RL_load Hi eq_refl)
    as (p' & Hp' & Hat).
  fold s in Hp', Hat. rewrite Hdone in Hp'. injection Hp' as <-.
  destruct Hat as (pre & v & mid & Hexit).
  destruct (read_exit_values C i _ pre v mid (f_loads _ _ Hf) Hexit)
    as (Hv & Hb & post & Hw).
  pose proof (sw_writes _ _ _ _ Hinv) as Hwr. rewrite Hw in Hwr.
  destruct (write_pair_writes C (0 + scheduled w sched)) as [k' Hk'].
  rewrite Hk' in Hwr. rewrite Hv in Hb.
  destruct (single_window_arith C _ _ _ k' Hr He Hwr Hb) as [Hnil Hval].
  rewrite <- Hv in Hval.
  assert (Hev : Z.even v = true).
  { destruct Hval as [-> | ->]; [exact He | apply even_uint_add_2; assumption]. }
  assert (Hrange : in_range v).
  { destruct Hval as [-> | ->]; [exact Hr | apply uint_add_in_range]. }
  exists pre, v, mid. split; [exact Hexit |]. split; [exact Hv |].
  split; [exact Hval |].
  split; [apply and_not_1_fix; assumption |]. split; [exact Hnil |].
  apply (no_block_in_quiet_window C (fun j => j = w) (trace s) pre i v mid);
    auto.
  intros pre' j post' Hsplit ->. rewrite (Hblock _ _ Hsplit).
  rewrite even_uint_add_1 by assumption. apply even_succ_odd, He.
Qed.

(** The writer locks from 0 after the reader's first load, writes and
    unlocks; the reader's first iteration fails, its second is clean at 2. *)
Lemma completed_read_is_clean_beside_single_writer_witness :
  in_range 0 /\ Z.even 0 = true /\ single_writer_pool 0 [WL_load; RL_load] /\
  [WL_load; RL_load] !! 1%nat = Some RL_load /\
  let s := run X86 ((1%nat, false) :: repeat (0%nat, false) 6 ++
                    repeat (1%nat, false) 8)
             (System 0 [WL_load; RL_load] []) in
  threads s !! 1%nat = Some Done /\
  exists pre v mid,
    read_exit 1 (trace s) pre v mid /\
    v = lock_after 0 pre /\
    (v = 0 \/ v = uint_add 0 2) /\ read_baseline v = v /\
    writes mid = [] /\
    ~ In (0%nat, user_block) mid.
Proof.
  assert (Hr : in_range 0) by (range_unfold; lia).
  assert (Hts : single_writer_pool 0 [WL_load; RL_load]).
  { split; [reflexivity |]. intros [| [| i]] p Hne Hi;
      [contradiction | injection Hi as <-; reflexivity | discriminate]. }
  split; [exact Hr |]. split; [reflexivity |]. split; [exact Hts |].
  split; [reflexivity |]. split; [reflexivity |].
  exact (completed_read_is_clean_beside_single_writer X86 0 0
           [WL_load; RL_load] 1
           ((1%nat, false) :: repeat (0%nat, false) 6 ++
            repeat (1%nat, false) 8)
           Hr eq_refl Hts eq_refl eq_refl).
Defined.

(** A spinning writer enters from 0 after the reader's first load, writes
    and unlocks; the reader's first iteration fails, its second is clean. *)
Lemma completed_read_is_clean_in_spinning_pool_witness :
  in_range 0 /\ Z.even 0 = true /\ spinning_pool [WS_load; RL_load] /\
  [WS_load; RL_load] !! 1%nat = Some RL_load /\
  let s := run X86 ((1%nat, false) :: repeat (0%nat, false) 4 ++
                    repeat (1%nat, false) 8)
             (System 0 [WS_load; RL_load] []) in
  threads s !! 1%nat = Some Done /\
  Z.of_nat (length (writes (trace s))) < UINT_MODULUS - 1 /\
  exists pre v mid,
    read_exit 1 (trace s) pre v mid /\
    v = lock_after 0 pre /\
    Z.even v = true /\ read_baseline v = v /\
    writes mid = [] /\
    (forall j, [WS_load; RL_load] !! j = Some WS_load ->
               ~ In (j, user_block) mid).
Proof.
  assert (Hr : in_range 0) by (range_unfold; lia).
  assert (Hts : spinning_pool [WS_load; RL_load])
    by (repeat constructor; auto).
  assert (Hb : Z.of_nat (length (writes (trace
                 (run X86 ((1%nat, false) :: repeat (0%nat, false) 4 ++
                           repeat (1%nat, false) 8)
                    (System 0 [WS_load; RL_load] []))))) < UINT_MODULUS - 1)
    by (vm_compute; reflexivity).
  split; [exact Hr |]. split; [reflexivity |]. split; [exact Hts |].
  split; [reflexivity |]. split; [reflexivity |]. split; [exact Hb |].
  exact (completed_read_is_clean_in_spinning_pool X86 0 [WS_load; RL_load] 1
           ((1%nat, false) :: repeat (0%nat, false) 4 ++
            repeat (1%nat, false) 8)
           Hr eq_refl Hts eq_refl eq_refl Hb).
Defined.

(** ** Writes still to come *)

Lemma pending_thread_step tgt sp p c :
  (pending_writes (fst (fst (thread_step tgt sp p c))) +
   length (omap written (snd (thread_step tgt sp p c))))%nat =
  pending_writes p.
Proof.
  unfold thread_step. destruct p; simpl; try reflexivity.
  - destruct ((c =? old) && negb sp); reflexivity.
  - destruct tgt; reflexivity.
  - destruct (negb (old =? c)); reflexivity.
Qed.

Lemma sum_list_with_insert {A} (f : A -> nat) (l : list A) : forall i x y,
  l !! i = Some x ->
  (sum_list_with f (<[i := y]> l) + f x = sum_list_with f l + f y)%nat.
Proof.
  induction l as [| a l IH]; intros [| i] x y H; try discriminate.
  - injection H as ->. simpl. lia.
  - simpl in *. specialize (IH i x y H). lia.
Qed.

Lemma pending_step tgt ch s :
  (pending (threads (step tgt ch s)) +
   length (writes (trace (step tgt ch s))))%nat =
  (pending (threads s) + length (writes (trace s)))%nat.
Proof.
  destruct ch as [i sp].
  destruct (threads s !! i) as [p |] eqn:Hi;
    [| rewrite step_none by exact Hi; reflexivity].
  rewrite (step_some _ _ _ _ _ Hi).
  pose proof (pending_thread_step tgt sp p (plock s)) as H.
  destruct (thread_step tgt sp p (plock s)) as [[p' c'] evs].
  cbn [threads trace fst snd] in *. rewrite writes_app, length_app.
  pose proof (sum_list_with_insert pending_writes _ _ _ p' Hi) as Hs.
  unfold pending. lia.
Qed.

Lemma pending_run tgt sched : forall s,
  (pending (threads (run tgt sched s)) +
   length (writes (trace (run tgt sched s))))%nat =
  (pending (threads s) + length (writes (trace s)))%nat.
Proof.
  induction sched as [| ch sched IH]; intros s; [reflexivity |].
  simpl. rewrite IH. apply pending_step.
Qed.

Lemma pending_spinning_pool ts :
  spinning_pool ts -> pending ts = (2 * spinning_writers ts)%nat.
Proof.
  unfold pending, spinning_writers.
  induction 1 as [| p ts [-> | ->] _ IH]; simpl in *; lia.
Qed.

Lemma pending_all_done ts : Forall (eq Done) ts -> pending ts = 0%nat.
Proof.
  unfold pending. induction 1 as [| p ts <- _ IH]; simpl; lia.
Qed.

(** X7.  No update of the lock word is lost among spinning writers.  In a
    pool of [N] spinning writers (and readers) started on the even lock
    word [c0], at any moment the number of writes made so far plus the
    writes the threads have still to make (two for a writer that has not
    entered, one for a writer inside) is [2 * N], and the lock word is
    [c0] plus the writes made, modulo [2^32]; so once every thread has
    completed the lock word is [c0 + 2 * N] modulo [2^32]. *)
Theorem spinning_writers_lose_no_update
    (tgt : target) (c0 : kroki_seqlock_t) (ts : list pc)
    (sched : list choice) :
  in_range c0 -> Z.even c0 = true -> spinning_pool ts ->
  let s := run tgt sched (System c0 ts []) in
  (length (writes (trace s)) + pending (threads s) =
   2 * spinning_writers ts)%nat /\
  plock s = wrap (c0 + 2 * Z.of_nat (spinning_writers ts)
                  - Z.of_nat (pending (threads s))) /\
  (Forall (eq Done) (threads s) ->
   plock s = wrap (c0 + 2 * Z.of_nat (spinning_writers ts))).
Proof.
  intros Hr He Hts s.
  pose proof (pending_run tgt sched (System c0 ts [])) as Hp.
  fold s in Hp. cbn [threads trace] in Hp.
  rewrite (pending_spinning_pool ts Hts) in Hp. simpl in Hp.
  pose proof (inv_lock _ _ (spin_inv_run tgt c0 sched _
                              (spin_inv_init c0 ts Hr He Hts))) as Hl.
  fold s in Hl.
  assert (Hsum : (length (writes (trace s)) + pending (threads s) =
                  2 * spinning_writers ts)%nat) by lia.
  split; [exact Hsum |]. split.
  - rewrite Hl. f_equal. lia.
  - intros Hdone. rewrite Hl. f_equal.
    rewrite (pending_all_done _ Hdone) in Hsum. lia.
Qed.

Lemma spinning_writers_lose_no_update_witness :
  in_range 0 /\ Z.even 0 = true /\ spinning_pool [WS_load; RL_load; WS_load] /\
  plock (run X86 (repeat (0%nat, false) 2 ++ repeat (2%nat, false) 3 ++
                  repeat (0%nat, false) 2 ++ repeat (2%nat, true) 4 ++
                  repeat (2%nat, false) 7 ++ repeat (1%nat, false) 5)
           (System 0 [WS_load; RL_load; WS_load] [])) = 4.
Proof.
  assert (Hr : in_range 0) by (range_unfold; lia).
  assert (Hts : spinning_pool [WS_load; RL_load; WS_load])
    by (repeat constructor; auto).
  split; [exact Hr |]. split; [reflexivity |]. split; [exact Hts |].
  refine (proj2 (proj2 (spinning_writers_lose_no_update X86 0
                          [WS_load; RL_load; WS_load] _ Hr eq_refl Hts)) _).
  vm_compute. repeat constructor.
Defined.

(** ** Running a pool to completion *)

Lemma run_app tgt sched1 sched2 : forall s,
  run tgt (sched1 ++ sched2) s = run tgt sched2 (run tgt sched1 s).
Proof.
  induction sched1 as [| ch sched1 IH]; intros s; [reflexivity |].
  simpl. apply IH.
Qed.

Lemma run_solo tgt i n : forall s p,
  threads s !! i = Some p ->
  plock (run tgt (repeat (i, false) n) s) = snd (solo tgt n p (plock s)) /\
  threads (run tgt (repeat (i, false) n) s) =
    <[i := fst (solo tgt n p (plock s))]> (threads s).
Proof.
  induction n as [| n IH]; intros s p Hi.
  - simpl. rewrite list_insert_id by exact Hi. auto.
  - cbn [repeat run solo]. rewrite (step_some _ _ _ _ _ Hi).
    pose proof (lookup_lt_Some _ _ _ Hi) as Hlen.
    destruct (thread_step tgt false p (plock s)) as [[p' c'] evs].
    cbn [fst snd].
    match goal with |- context [run tgt _ ?s1] =>
      destruct (IH s1 p') as [H1 H2] end.
    { cbn [threads]. apply list_lookup_insert_eq, Hlen. }
    rewrite H1, H2. cbn [plock threads].
    rewrite list_insert_insert_eq. auto.
Qed.

Lemma solo_step tgt n p c :
  solo tgt (S n) p c =
  solo tgt n (fst (fst (thread_step tgt false p c)))
             (snd (fst (thread_step tgt false p c))).
Proof.
  cbn [solo]. destruct (thread_step tgt false p c) as [[p' c'] evs].
  reflexivity.
Qed.

Lemma solo_Done tgt n c : fst (solo tgt n Done c) = Done.
Proof. induction n as [| n IH]; [reflexivity | exact IH]. Qed.

Ltac solo_steps facts :=
  repeat (rewrite solo_step;
          cbn [thread_step kroki_seqlock_write_lock
               kroki_seqlock_write_lock_spin kroki_seqlock_write_unlock
               kroki_seqlock_read_lock kroki_seqlock_read_unlock
               caller_block fst snd];
          facts; cbn [andb negb fst snd]);
  first [apply solo_Done | reflexivity].

Lemma solo_finishes tgt p c :
  in_range c -> spin_ok c p ->
  in_critical_section p = true \/ Z.even c = true ->
  fst (solo tgt 8 p c) = Done.
Proof.
  intros Hr Hok Hfree.
  assert (Hcase : in_critical_section p = true \/
                  (in_critical_section p = false /\ Z.even c = true)).
  { destruct (in_critical_section p) eqn:E; [auto |].
    destruct Hfree as [? | ?]; [discriminate | auto]. }
  clear Hfree. destruct Hcase as [Hin | [Hout He]].
  - destruct p; try discriminate; solo_steps idtac.
  - assert (Hs : spin_expected c = c)
      by (rewrite spin_expected_spec, He by assumption; reflexivity).
    assert (Hb : read_baseline c = c) by (apply and_not_1_fix; assumption).
    destruct p; try discriminate; try contradiction;
      try destruct (c =? old) eqn:E; try destruct (old =? c) eqn:E';
      solo_steps ltac:(rewrite ?Hs, ?Hb, ?E, ?E', ?Z.eqb_refl).
Qed.

Lemma spin_free_when_even c0 s j q :
  spin_inv c0 s -> Z.even (plock s) = true ->
  threads s !! j = Some q -> in_critical_section q = false.
Proof.
  intros Hinv He Hj. destruct (in_critical_section q) eqn:Hq; [| reflexivity].
  exfalso. apply (even_not_odd (plock s) He).
  apply (spin_ok_inside_odd _ q Hq), (inv_threads _ _ Hinv _ _ Hj).
Qed.

Lemma finish_thread tgt c0 s i p :
  spin_inv c0 s -> threads s !! i = Some p ->
  in_critical_section p = true \/ Z.even (plock s) = true ->
  threads (run tgt (repeat (i, false) 8) s) = <[i := Done]> (threads s) /\
  spin_inv c0 (run tgt (repeat (i, false) 8) s) /\
  Z.even (plock (run tgt (repeat (i, false) 8) s)) = true.
Proof.
  intros Hinv Hi Hfree. set (s' := run tgt (repeat (i, false) 8) s).
  destruct (run_solo tgt i 8 s p Hi) as [_ Hth]. fold s' in Hth.
  rewrite (solo_finishes tgt p (plock s) (inv_range _ _ Hinv)
             (inv_threads _ _ Hinv _ _ Hi) Hfree) in Hth.
  pose proof (spin_inv_run tgt c0 (repeat (i, false) 8) s Hinv) as Hinv'.
  fold s' in Hinv'. split; [exact Hth |]. split; [exact Hinv' |].
  destruct (Z.odd (plock s')) eqn:Ho;
    [| rewrite <- Z.negb_odd, Ho; reflexivity].
  exfalso. destruct (inv_holder _ _ Hinv' Ho) as (j & q & Hj & Hq).
  rewrite Hth in Hj. apply lookup_insert_inv in Hj.
  destruct Hj as [[-> ->] | [Hne Hj]]; [discriminate |].
  destruct Hfree as [Hp | He].
  - apply Hne. symmetry. exact (inv_mutex _ _ Hinv _ _ _ _ Hi Hj Hp Hq).
  - rewrite (spin_free_when_even c0 s j q Hinv He Hj) in Hq. discriminate.
Qed.

Lemma finish_first tgt c0 k : forall s,
  spin_inv c0 s -> Z.even (plock s) = true ->
  (k <= length (threads s))%nat ->
  exists sched,
    spin_inv c0 (run tgt sched s) /\
    Z.even (plock (run tgt sched s)) = true /\
    length (threads (run tgt sched s)) = length (threads s) /\
    forall j, (j < k)%nat -> threads (run tgt sched s) !! j = Some Done.
Proof.
  induction k as [| k IH]; intros s Hinv He Hk.
  - exists []. simpl. split; [exact Hinv |]. split; [exact He |].
    split; [reflexivity |]. intros j Hj. lia.
  - assert (Hk' : (k <= length (threads s))%nat) by lia.
    destruct (IH s Hinv He Hk') as (sched & Hinv' & He' & Hlen & Hdone).
    set (s' := run tgt sched s) in *.
    assert (Hlt : (k < length (threads s'))%nat) by lia.
    destruct (lookup_lt_is_Some_2 (threads s') k Hlt) as [p Hp].
    destruct (finish_thread tgt c0 s' k p Hinv' Hp (or_intror He'))
      as (Hth & Hinv'' & He'').
    exists (sched ++ repeat (k, false) 8). rewrite run_app. fold s'.
    split; [exact Hinv'' |]. split; [exact He'' |]. rewrite Hth.
    split; [rewrite length_insert; exact Hlen |].
    intros j Hj. destruct (decide (j = k)) as [-> | Hne].
    + apply list_lookup_insert_eq. lia.
    + rewrite list_lookup_insert_ne by auto. apply Hdone. lia.
Qed.

(** X6.  A spinning pool never gets stuck.  From every state that spinning
    writers and readers, started on an even lock word, can reach under any
    schedule and any spurious failures, some continuation of the schedule
    brings every thread past its pair: no writer is locked out for ever and
    no reader is left retrying. *)
Theorem spinning_pool_can_always_complete
    (tgt : target) (c0 : kroki_seqlock_t) (ts : list pc)
    (sched : list choice) :
  in_range c0 -> Z.even c0 = true -> spinning_pool ts ->
  exists more,
    Forall (eq Done) (threads (run tgt (sched ++ more) (System c0 ts []))).
Proof.
  intros Hr He Hts.
  pose proof (spin_inv_run tgt c0 sched _ (spin_inv_init c0 ts Hr He Hts))
    as Hinv.
  set (s := run tgt sched (System c0 ts [])) in *.
  assert (Hquiet : exists first,
            spin_inv c0 (run tgt first s) /\
            Z.even (plock (run tgt first s)) = true).
  { destruct (Z.odd (plock s)) eqn:Ho.
    - destruct (inv_holder _ _ Hinv Ho) as (i & p & Hi & Hp).
      exists (repeat (i, false) 8).
      apply (finish_thread tgt c0 s i p Hinv Hi (or_introl Hp)).
    - exists []. simpl. split; [exact Hinv |].
      rewrite <- Z.negb_odd, Ho. reflexivity. }
  destruct Hquiet as (first & Hinv1 & He1).
  destruct (finish_first tgt c0 (length (threads (run tgt first s)))
              (run tgt first s) Hinv1 He1 (le_n _))
    as (rest & _ & _ & Hlen & Hdone).
  exists (first ++ rest). rewrite !run_app. fold s.
  apply Forall_lookup. intros j q Hj.
  rewrite Hdone in Hj by (rewrite <- Hlen; eapply lookup_lt_Some; eauto).
  congruence.
Qed.

(** From the state in which one writer is inside and the other has failed
    its compare-and-swap, sixteen more steps complete both. *)
Lemma spinning_pool_can_always_complete_witness :
  in_range 0 /\ Z.even 0 = true /\ spinning_pool [WS_load; WS_load] /\
  exists more,
    Forall (eq Done)
      (threads (run X86
                  ([(0%nat, false); (1%nat, false); (0%nat, false);
                    (1%nat, false)] ++ more)
                  (System 0 [WS_load; WS_load] []))).
Proof.
  assert (Hr : in_range 0) by (range_unfold; lia).
  assert (Hts : spinning_pool [WS_load; WS_load])
    by (repeat constructor; auto).
  split; [exact Hr |]. split; [reflexivity |]. split; [exact Hts |].
  exact (spinning_pool_can_always_complete X86 0 [WS_load; WS_load] _
           Hr eq_refl Hts).
Defined.

(** ** A spinning writer without competition *)

Lemma lone_inv_writer_step tgt C w k s :
  in_range C -> Z.even C = true ->
  lone_inv C w k s -> lone_inv C w (S k) (step tgt (w, false) s).
Proof.
  intros HC He [Hp Hl Hev Hw Hr].
  pose proof (lookup_lt_Some _ _ _ Hp) as Hlen.
  rewrite (step_some _ _ _ _ _ Hp).
  assert (Hs : spin_expected C = C)
    by (rewrite spin_expected_spec, He by assumption; reflexivity).
  assert (Hothers : forall p', forall i p, i <> w ->
            <[w := p']> (threads s) !! i = Some p -> read_side p = true).
  { intros p' i p Hne Hi. rewrite list_lookup_insert_ne in Hi by auto. eauto. }
  destruct s as [c ts tr]. cbn [plock threads trace] in *.
  do 4 (try destruct k as [| k]);
    cbn [spin_pair_pc spin_pair_lock thread_step kroki_seqlock_write_lock
         kroki_seqlock_write_lock_spin kroki_seqlock_write_unlock
         kroki_seqlock_read_lock kroki_seqlock_read_unlock caller_block]
      in *; subst c; rewrite ?Hs, ?Z.eqb_refl; cbn [andb negb];
    (constructor; cbn [plock threads trace];
     [ rewrite list_lookup_insert_eq by exact Hlen; reflexivity
     | cbn [spin_pair_lock]; auto
     | rewrite events_of_app, decide_True, Hev by reflexivity;
       unfold spin_pair_events; cbn; rewrite ?take_nil; reflexivity
     | rewrite writes_app, Hw;
       unfold spin_pair_events; cbn; rewrite ?take_nil; reflexivity
     | apply Hothers ]).
Qed.

Lemma lone_inv_reader_step tgt C w k i sp s :
  i <> w -> lone_inv C w k s -> lone_inv C w k (step tgt (i, sp) s).
Proof.
  intros Hne [Hp Hl He Hw Hr].
  destruct (threads s !! i) as [p |] eqn:Hi;
    [| rewrite step_none by exact Hi; constructor; assumption].
  rewrite (step_some _ _ _ _ _ Hi).
  pose proof (read_thread_step tgt sp p (plock s) (Hr _ _ Hne Hi)) as E.
  destruct (thread_step tgt sp p (plock s)) as [[p' c'] evs].
  destruct E as (Hp' & -> & Hev).
  constructor; cbn [plock threads trace].
  - rewrite list_lookup_insert_ne by exact Hne. exact Hp.
  - exact Hl.
  - rewrite events_of_app, decide_False, app_nil_r by exact Hne. exact He.
  - rewrite writes_app, Hev, app_nil_r. exact Hw.
  - intros j q Hj Hq. apply lookup_insert_inv in Hq.
    destruct Hq as [[-> ->] | [_ Hq]]; eauto.
Qed.

Lemma lone_inv_run tgt C w sched :
  in_range C -> Z.even C = true ->
  Forall (fun ch => fst ch = w -> snd ch = false) sched ->
  forall k s,
    lone_inv C w k s ->
    lone_inv C w (k + scheduled w sched) (run tgt sched s).
Proof.
  intros HC He Hsched.
  induction Hsched as [| [i sp] sched Hch _ IH]; intros k s H; simpl run.
  - unfold scheduled. simpl. rewrite Nat.add_0_r. exact H.
  - rewrite scheduled_cons. simpl fst in *.
    destruct (decide (i = w)) as [-> | Hne].
    + replace (k + (1 + scheduled w sched))%nat
        with (S k + scheduled w sched)%nat by lia.
      simpl in Hch. rewrite (Hch eq_refl).
      apply IH, lone_inv_writer_step; assumption.
    + apply IH, lone_inv_reader_step; assumption.
Qed.

Lemma lone_inv_init C w ts :
  lone_spinner_pool w ts -> lone_inv C w 0 (System C ts []).
Proof.
  intros [Hw Hothers]. constructor; simpl; auto.
  intros i p Hne Hi. rewrite (Hothers _ _ Hne Hi). reflexivity.
Qed.

Lemma spin_pair_complete C k :
  (4 <= k)%nat ->
  spin_pair_pc C k = Done /\
  spin_pair_lock C k = uint_add C 2 /\
  take k (spin_pair_events C) = spin_pair_events C.
Proof.
  intros Hk. do 4 (destruct k as [| k]; [lia |]).
  unfold spin_pair_events. cbn. rewrite take_nil. auto.
Qed.

(** X9.  Without another writer, [kroki_seqlock_write_lock_spin] does not
    spin.  Let the only writer of a pool use
    [kroki_seqlock_write_lock_spin] ... [kroki_seqlock_write_unlock] from
    the even lock word [C], readers interleaved at will, its
    compare-and-swap not failing spuriously.  After four steps of the
    writer the pair is complete: one relaxed load, one successful
    compare-and-swap from [C] to [C + 1], the block and the release store of
    [C + 2]; no failed attempt, no pause; the lock word is [C + 2] on
    [unsigned int], as after the pair that starts with
    [kroki_seqlock_write_lock]. *)
Theorem lone_spinning_writer_never_retries
    (tgt : target) (C : kroki_seqlock_t) (w : nat) (ts : list pc)
    (sched : list choice) :
  in_range C -> Z.even C = true -> lone_spinner_pool w ts ->
  Forall (fun ch => fst ch = w -> snd ch = false) sched ->
  (4 <= scheduled w sched)%nat ->
  let s := run tgt sched (System C ts []) in
  threads s !! w = Some Done /\
  plock s = uint_add C 2 /\
  events_of w (trace s) =
    [ atomic_load_n C ATOMIC_RELAXED;
      atomic_compare_exchange_n C (uint_add C 1) true
        ATOMIC_ACQUIRE ATOMIC_RELAXED true;
      user_block;
      atomic_store_n (uint_add C 2) ATOMIC_RELEASE ] /\
  writes (trace s) = [uint_add C 1; uint_add C 2].
Proof.
  intros Hr He Hts Hsched Hk s.
  pose proof (lone_inv_run tgt C w sched Hr He Hsched 0 _
                (lone_inv_init C w ts Hts)) as [Hpc Hlock Hev Hw _].
  fold s in Hpc, Hlock, Hev, Hw. simpl in Hpc, Hlock, Hev, Hw.
  destruct (spin_pair_complete C _ Hk) as (E1 & E2 & E3).
  rewrite E1 in Hpc. rewrite E2 in Hlock. rewrite E3 in Hev, Hw.
  repeat split; assumption.
Qed.

Lemma lone_spinning_writer_never_retries_witness :
  in_range 6 /\ Z.even 6 = true /\ lone_spinner_pool 0 [WS_load; RL_load] /\
  Forall (fun ch => fst ch = 0%nat -> snd ch = false)
    [(0%nat, false); (1%nat, true); (0%nat, false); (1%nat, false);
     (0%nat, false); (0%nat, false)] /\
  plock (run X86
           [(0%nat, false); (1%nat, true); (0%nat, false); (1%nat, false);
            (0%nat, false); (0%nat, false)]
           (System 6 [WS_load; RL_load] [])) = uint_add 6 2.
Proof.
  assert (Hr : in_range 6) by (range_unfold; lia).
  assert (Hts : lone_spinner_pool 0 [WS_load; RL_load]).
  { split; [reflexivity |]. intros [| [| i]] p Hne Hi;
      [contradiction | injection Hi as <-; reflexivity | discriminate]. }
  assert (Hs : Forall (fun ch => fst ch = 0%nat -> snd ch = false)
    [(0%nat, false); (1%nat, true); (0%nat, false); (1%nat, false);
     (0%nat, false); (0%nat, false)]).
  { repeat constructor; simpl; intros; try reflexivity; discriminate. }
  split; [exact Hr |]. split; [reflexivity |]. split; [exact Hts |].
  split; [exact Hs |].
  refine (proj1 (proj2 (lone_spinning_writer_never_retries X86 6 0
                          [WS_load; RL_load] _ Hr eq_refl Hts Hs _))).
  vm_compute. lia.
Defined.

(** ** Two writers that do not spin *)

(** X8.  [kroki_seqlock_write_lock] alone does not serialize writers.  For
    every lock word [C], two threads that both use
    [kroki_seqlock_write_lock] ... [kroki_seqlock_write_unlock] can be
    inside their critical sections at the same time, and when both have
    completed the lock word is [C + 2]: it advanced by one generation for
    two writes. *)
Theorem write_lock_does_not_exclude_writers
    (tgt : target) (C : kroki_seqlock_t) :
  exists sched more,
    let s := run tgt sched (System C [WL_load; WL_load] []) in
    let s' := run tgt (sched ++ more) (System C [WL_load; WL_load] []) in
    threads s = [W_block C; W_block C] /\
    in_critical_section (W_block C) = true /\
    plock s = uint_add C 1 /\
    threads s' = [Done; Done] /\
    plock s' = uint_add C 2 /\
    length (writes (trace s')) = 6%nat.
Proof.
  exists [(0%nat, false); (1%nat, false); (0%nat, false); (0%nat, false);
          (0%nat, false); (1%nat, false); (1%nat, false); (1%nat, false)].
  exists [(0%nat, false); (0%nat, false); (1%nat, false); (1%nat, false)].
  repeat split; reflexivity.
Qed.
